(** * Meeting-audio pipeline: timestamp normalisation, alignment, assembly

    A shallow embedding of [meeting_audio_mcp.py] (module [MeetingAudio])
    and of [server.py] (module [Server]), with the properties of the
    pipeline stated and proved over it.

    Conventions of the embedding.
    - Python floats are modelled as exact rationals [Q]; [round(x, 2)] is
      rounding of the exact value to the nearest multiple of 1/100, ties
      to even.  NaN and infinities are outside the model.  Orderings and
      control flow do not depend on this idealisation; the values written
      by the normalisation loop do, and module [Normalizer] treats that
      loop in binary64, on the dict objects it updates in place.
    - Python [str] is modelled as [string], read as a sequence of code
      points below 256; comparison is lexicographic by code point.
    - Every call of the [random] module, of [uuid4] and of [tempfile] is an
      explicit input (a "draw") of the function that makes it.
    - Exceptions are modelled by the [result] type; files on disk are not
      modelled ([os.remove] and [touch] have no counterpart). *)

From Stdlib Require Import ZArith QArith Qround Qminmax Lia Lqa String Ascii List.
From Stdlib Require Uint63 PrimFloat.
From stdpp Require Import gmap strings list sorting pretty.

Local Close Scope Q_scope.
Local Open Scope string_scope.
Local Open Scope nat_scope.

(** ** Numbers *)

(** Nearest integer, ties to even. *)
Definition round_half_even (x : Q) : Z :=
  let f := Qfloor x in
  match Qcompare (x - inject_Z f) (1 # 2) with
  | Lt => f
  | Gt => (f + 1)%Z
  | Eq => if Z.even f then f else (f + 1)%Z
  end.

(** [round(x, 2)] *)
Definition round2 (x : Q) : Q :=
  Qred (round_half_even (x * 100) # 100).

(** [x > y] on floats *)
Definition Qgt_bool (x y : Q) : bool := negb (Qle_bool x y).

(** ** Strings *)

(** [str.isspace] on one code point below 256. *)
Definition isspace (c : ascii) : bool :=
  let n := nat_of_ascii c in
  ((9 <=? n) && (n <=? 13)) || ((28 <=? n) && (n <=? 32))
  || (n =? 133) || (n =? 160).

Fixpoint lstrip (s : string) : string :=
  match s with
  | String c s' => if isspace c then lstrip s' else s
  | EmptyString => EmptyString
  end.

Definition rstrip (s : string) : string :=
  String.rev (lstrip (String.rev s)).

(** [s.strip()] *)
Definition strip (s : string) : string := rstrip (lstrip s).

(** [sep.join(ls)] *)
Definition join (sep : string) (ls : list string) : string :=
  String.concat sep ls.

(** [s[:n]] for [n >= 0] *)
Fixpoint str_take (n : nat) (s : string) : string :=
  match n, s with
  | S n', String c s' => String c (str_take n' s')
  | _, _ => EmptyString
  end.

(** ** Exceptions *)

Inductive exn : Type :=
| HTTPStatusError (status : nat)
| Exception (msg : string).

(** [str(e)]; only the message of a plain [Exception] is used below: the
    text that [httpx] gives an [HTTPStatusError] is not modelled, and no
    statement relies on the stand-in for it. *)
Definition exn_str (e : exn) : string :=
  match e with
  | HTTPStatusError status => "HTTP status " ++ pretty status
  | Exception msg => msg
  end.

Inductive result (A : Type) : Type :=
| Ok (a : A)
| Raise (e : exn).
Arguments Ok {A} a.
Arguments Raise {A} e.

Definition bind {A B : Type} (r : result A) (k : A -> result B) : result B :=
  match r with
  | Ok a => k a
  | Raise e => Raise e
  end.

Notation "'let*' x ':=' r 'in' k" := (bind r (fun x => k))
  (at level 10, x name, r at level 100, k at level 200).

(** ** The HTTP response seen by [download_audio] *)

Record HttpResponse : Type := {
  resp_status : nat;
  resp_headers : list (string * string);
  resp_body : list (list Byte.byte)
}.

Definition ascii_lower (c : ascii) : ascii :=
  let n := nat_of_ascii c in
  if (65 <=? n) && (n <=? 90) then ascii_of_nat (n + 32) else c.

Fixpoint str_lower (s : string) : string :=
  match s with
  | String c s' => String (ascii_lower c) (str_lower s')
  | EmptyString => EmptyString
  end.

(** [resp.headers.get(key)]: header names compare without case; the values
    of a repeated header are joined with a comma. *)
Definition headers_get (hs : list (string * string)) (key : string)
  : option string :=
  match List.filter (fun kv => String.eqb (str_lower (fst kv)) (str_lower key)) hs with
  | [] => None
  | kvs => Some (join ", " (map snd kvs))
  end.

(** [resp.raise_for_status()] *)
Definition raise_for_status (resp : HttpResponse) : result unit :=
  if (200 <=? resp_status resp) && (resp_status resp <=? 299)
  then Ok tt
  else Raise (HTTPStatusError (resp_status resp)).

(** ** Data model *)

(** A segment dict returned by the transcription collaborator.  The keys
    [seek], [tokens], [temperature], [avg_logprob], [compression_ratio] and
    [no_speech_prob] hold constants and are never read; [text] is read with
    [a.get("text", "")], hence optional. *)
Record AsrSegment : Type := {
  asr_id : nat;
  asr_start : Q;
  asr_end : Q;
  asr_text : option string
}.

(** A speaker turn returned by the diarization collaborator. *)
Record DiarSegment : Type := {
  diar_speaker : string;
  diar_start : Q;
  diar_end : Q
}.

(** An element of [aligned_segments]. *)
Record AlignedSegment : Type := {
  speaker : string;
  start : Q;
  end_ : Q;
  text : string
}.

(** The dict returned by [process_meeting_audio]. *)
Record MeetingTranscript : Type := {
  meeting_id : string;
  speakers : list string;
  segments : list AlignedSegment;
  full_transcript : string;
  duration : Q
}.

Definition CHUNK_DURATION_SEC : Q := 20.

(** The [while len(text) < length] loop of [generate_random_text], over the
    sentence list of the calling module; [picks k] is the index drawn by the
    [k]-th [random.choice].  Every turn adds at least the trailing blank, so
    [fuel := length] turns are enough (lemma [generate_loop_full]). *)
Fixpoint generate_loop (sentences : list string) (fuel : nat)
    (picks : nat -> nat) (k : nat) (length : nat) (text : string) : string :=
  match fuel with
  | O => text
  | S fuel' =>
      if String.length text <? length
      then generate_loop sentences fuel' picks (S k) length
             (text ++ nth (picks k) sentences "" ++ " ")
      else text
  end.

(** [text[:length].strip()] after the loop. *)
Definition generate_text (sentences : list string) (picks : nat -> nat)
    (length : nat) : string :=
  strip (str_take length (generate_loop sentences length picks 0 length "")).

Module MeetingAudio.

Definition SAMPLE_SENTENCES : list string := [
  "The quick brown fox jumps over the lazy dog.";
  "This is a sample transcription chunk.";
  "We are testing the mock audio transcription system.";
  "The weather today is quite pleasant.";
  "I enjoy working with language models.";
  "This mock server simulates Whisper API behavior.";
  "Audio transcription is becoming increasingly accurate.";
  "Machine learning has revolutionized speech recognition.";
  "Testing is an important part of development.";
  "This is a demonstration of the MCP pattern.";
  "Let's discuss the project timeline and deliverables.";
  "Can everyone please share their updates for this week?";
  "I think we should focus on the main objectives first.";
  "That's a great point, let me add to that.";
  "We need to make sure we hit all our targets."
].

Definition SPEAKERS : list string := ["spk_1"; "spk_2"; "spk_3"; "spk_4"].

Definition generate_random_text (picks : nat -> nat) (length : nat) : string :=
  generate_text SAMPLE_SENTENCES picks length.

(** [download_audio]: the content type is [resp.headers.get("Content-Type")]
    with no default; [tmp_path] is the name chosen by
    [tempfile.NamedTemporaryFile]. *)
Definition download_audio (resp : HttpResponse) (tmp_path : string)
  : result (string * option string) :=
  let* _ := raise_for_status resp in
  let content_type := headers_get (resp_headers resp) "Content-Type" in
  Ok (tmp_path, content_type).

(** [f"chunk_{i:03d}.mp3"] *)
Definition chunk_name (i : nat) : string :=
  let d := pretty i in
  "chunk_" ++ String.concat "" (replicate (3 - String.length d) "0") ++ d ++ ".mp3".

(** [split_audio]: [NUM_CHUNKS] files below the fresh directory [tmp_dir]. *)
Definition split_audio (tmp_dir : string) (NUM_CHUNKS : nat) : list string :=
  map (fun i => tmp_dir ++ "/" ++ chunk_name i) (seq 0 NUM_CHUNKS).

(** The draws of one turn of the loop of [transcribe_chunk]. *)
Record SegmentDraw : Type := {
  draw_duration : Q;        (* random.uniform(2.0, 5.0) *)
  draw_length : nat;        (* random.randint(60, 120) *)
  draw_picks : nat -> nat   (* the random.choice calls of the text *)
}.

(** The [for i in range(num_segments)] loop of [transcribe_chunk]; the
    list holds one draw per turn, so that [num_segments] is its length. *)
Fixpoint transcribe_loop (draws : list SegmentDraw) (i : nat)
    (current_time : Q) : list AsrSegment :=
  match draws with
  | [] => []
  | dr :: rest =>
      let start := round2 current_time in
      let duration := round2 (draw_duration dr) in
      let end_ := round2 (start + duration)%Q in
      let text := generate_random_text (draw_picks dr) (draw_length dr) in
      {| asr_id := i; asr_start := start; asr_end := end_;
         asr_text := Some text |}
      :: transcribe_loop rest (S i) end_
  end.

Definition transcribe_chunk (draws : list SegmentDraw) : list AsrSegment :=
  transcribe_loop draws 0 0%Q.

(** What [random] may return in [transcribe_chunk]. *)
Definition draw_ok (dr : SegmentDraw) : Prop :=
  (2 <= draw_duration dr)%Q /\ (draw_duration dr <= 5)%Q.

Definition draws_ok (draws : list SegmentDraw) : Prop :=
  2 <= List.length draws <= 5 /\ Forall draw_ok draws.

(** The draws of one turn of the loop of [diarize_audio]. *)
Record TurnDraw : Type := {
  draw_speaker : nat;       (* random.choice(SPEAKERS) *)
  draw_turn : Q             (* random.uniform(10.0, 80.0) *)
}.

(** The [while] loop of [diarize_audio]; the list holds one draw per
    permitted turn, so that [num_segments] is its length. *)
Fixpoint diarize_loop (draws : list TurnDraw) (total_duration : Q)
    (current_time : Q) : list DiarSegment :=
  match draws with
  | [] => []
  | dr :: rest =>
      if Qgt_bool total_duration current_time then
        let speaker := nth (draw_speaker dr) SPEAKERS "" in
        let start := round2 current_time in
        let duration := round2 (draw_turn dr) in
        let end_ := round2 (Qmin (start + duration)%Q total_duration) in
        {| diar_speaker := speaker; diar_start := start; diar_end := end_ |}
        :: diarize_loop rest total_duration end_
      else []
  end.

Definition diarize_audio (draws : list TurnDraw) : list DiarSegment :=
  diarize_loop draws 2000%Q 0%Q.

(** The overlap test of the aligner. *)
Definition overlap (a : AsrSegment) (d : DiarSegment) : bool :=
  Qle_bool (asr_start a) (diar_end d) && Qle_bool (diar_start d) (asr_end a).

Definition aligned (a : AsrSegment) (d : DiarSegment) : AlignedSegment :=
  {| speaker := diar_speaker d;
     start := round2 (asr_start a);
     end_ := round2 (asr_end a);
     text := strip (default "" (asr_text a)) |}.

(** The inner [for d in diar_segments] loop with its [break]: what the
    turn for [a] appends to [results]. *)
Fixpoint align_one (a : AsrSegment) (diar_segments : list DiarSegment)
  : list AlignedSegment :=
  match diar_segments with
  | [] => []
  | d :: rest =>
      if overlap a d then [aligned a d] else align_one a rest
  end.

(** The outer [for a in asr_segments] loop, [results] threaded through. *)
Fixpoint align_loop (asr_segments : list AsrSegment)
    (diar_segments : list DiarSegment) (results : list AlignedSegment)
  : list AlignedSegment :=
  match asr_segments with
  | [] => results
  | a :: rest =>
      align_loop rest diar_segments (results ++ align_one a diar_segments)
  end.

Definition align_asr_with_diarization (asr_segments : list AsrSegment)
    (diar_segments : list DiarSegment) : list AlignedSegment :=
  align_loop asr_segments diar_segments [].

(** The transcription collaborator as [process_meeting_audio] calls it:
    [transcribe i chunk content_type] is the outcome of the call
    [transcribe_chunk(str(chunk), content_type)] made for the [i]-th
    chunk.  The mock ignores both arguments and only draws. *)
Definition Transcriber : Type :=
  nat -> string -> option string -> result (list AsrSegment).

Definition mock_transcriber (draws : nat -> list SegmentDraw) : Transcriber :=
  fun i _ _ => Ok (transcribe_chunk (draws i)).

(** [s["start"] += offset; s["end"] += offset] *)
Definition shift (offset : Q) (s : AsrSegment) : AsrSegment :=
  {| asr_id := asr_id s;
     asr_start := (asr_start s + offset)%Q;
     asr_end := (asr_end s + offset)%Q;
     asr_text := asr_text s |}.

(** The [for chunk in chunks] loop of [process_meeting_audio], with
    [all_asr_segments] and [offset] threaded through; an exception of the
    collaborator leaves the loop. *)
Fixpoint chunks_loop (transcribe : Transcriber) (content_type : option string)
    (chunks : list string) (i : nat) (all_asr_segments : list AsrSegment)
    (offset : Q) : result (list AsrSegment) :=
  match chunks with
  | [] => Ok all_asr_segments
  | chunk :: rest =>
      let* segs := transcribe i chunk content_type in
      let segs := map (shift offset) segs in
      chunks_loop transcribe content_type rest (S i)
        (all_asr_segments ++ segs) (offset + CHUNK_DURATION_SEC)%Q
  end.

(** [" ".join([s["text"] for s in aligned_segments])] *)
Definition full_text (aligned_segments : list AlignedSegment) : string :=
  join " " (map text aligned_segments).

(** [sorted({s["speaker"] for s in aligned_segments})]; the set is
    enumerated in an order of its own before it is sorted. *)
Definition speakers_of (aligned_segments : list AlignedSegment) : list string :=
  merge_sort String.le
    (elements (list_to_set (map speaker aligned_segments) : gset string)).

(** [max(it, default=d)]: the first greatest element. *)
Definition py_max (l : list Q) (d : Q) : Q :=
  match l with
  | [] => d
  | x :: rest => fold_left (fun m y => if Qgt_bool y m then y else m) rest x
  end.

(** [max((s["end"] for s in aligned_segments), default=0.0)] *)
Definition duration_of (aligned_segments : list AlignedSegment) : Q :=
  py_max (map end_ aligned_segments) 0%Q.

(** Step 4 of [process_meeting_audio]: the returned dict. *)
Definition response (uuid : string) (aligned_segments : list AlignedSegment)
  : MeetingTranscript :=
  {| meeting_id := uuid;
     speakers := speakers_of aligned_segments;
     segments := aligned_segments;
     full_transcript := full_text aligned_segments;
     duration := duration_of aligned_segments |}.

(** Everything [process_meeting_audio] obtains from outside. *)
Record World : Type := {
  http_response : HttpResponse;
  tmp_path : string;                (* tempfile.NamedTemporaryFile *)
  tmp_dir : string;                 (* tempfile.mkdtemp *)
  NUM_CHUNKS : nat;                 (* os.getenv("NUM_CHUNKS", "100") *)
  transcriber : Transcriber;
  diarizer : string -> result (list DiarSegment);
  uuid : string                     (* str(uuid4()) *)
}.

Definition process_meeting_audio (w : World) : result MeetingTranscript :=
  let* dl := download_audio (http_response w) (tmp_path w) in
  let tmp_file := fst dl in
  let content_type := snd dl in
  let chunks := split_audio (tmp_dir w) (NUM_CHUNKS w) in
  let* all_asr_segments :=
    chunks_loop (transcriber w) content_type chunks 0 [] 0%Q in
  let* diar_segments := diarizer w tmp_file in
  let aligned_segments :=
    align_asr_with_diarization all_asr_segments diar_segments in
  Ok (response (uuid w) aligned_segments).

End MeetingAudio.

Module Server.

Definition sentences : list string := [
  "The quick brown fox jumps over the lazy dog.";
  "This is a sample transcription chunk.";
  "We are testing the mock audio transcription system.";
  "The weather today is quite pleasant.";
  "I enjoy working with language models.";
  "This mock server simulates Whisper API behavior.";
  "Audio transcription is becoming increasingly accurate.";
  "Machine learning has revolutionized speech recognition.";
  "Testing is an important part of development.";
  "This is a demonstration of the MCP pattern."
].

Definition generate_random_text (picks : nat -> nat) (length : nat) : string :=
  generate_text sentences picks length.

(** [download_audio]: the content type is
    [resp.headers.get("Content-Type", "audio/mpeg")]. *)
Definition download_audio (resp : HttpResponse) (tmp_path : string)
  : result (string * string) :=
  let* _ := raise_for_status resp in
  let content_type :=
    default "audio/mpeg" (headers_get (resp_headers resp) "Content-Type") in
  Ok (tmp_path, content_type).

Definition split_audio (tmp_dir : string) (NUM_CHUNKS : nat) : list string :=
  MeetingAudio.split_audio tmp_dir NUM_CHUNKS.

(** The mock [transcribe_chunk]: [length] is [random.randint(80, 150)]. *)
Definition transcribe_chunk (picks : nat -> nat) (length : nat) : string :=
  generate_random_text picks length.

(** [transcribe i chunk content_type]: the outcome of the call
    [transcribe_chunk(str(chunk), content_type)] for the [i]-th chunk. *)
Definition Transcriber : Type :=
  nat -> string -> option string -> result string.

(** The [for i, chunk in enumerate(chunks, 1)] loop of
    [transcribe_audio_generator]: the strings it yields, in order. *)
Fixpoint yield_loop (transcribe : Transcriber) (content_type : string)
    (chunks : list string) (i : nat) : list string :=
  match chunks with
  | [] => []
  | chunk :: rest =>
      match transcribe (i - 1) chunk (Some content_type) with
      | Ok text => text ++ " "
      | Raise e =>
          "[Error transcribing chunk " ++ pretty i ++ ": " ++ exn_str e ++ "] "
      end :: yield_loop transcribe content_type rest (S i)
  end.

Record World : Type := {
  http_response : HttpResponse;
  tmp_path : string;
  tmp_dir : string;
  NUM_CHUNKS : nat;
  transcriber : Transcriber
}.

Definition transcribe_audio_generator (w : World) : result (list string) :=
  let* dl := download_audio (http_response w) (tmp_path w) in
  let content_type := snd dl in
  let chunks := split_audio (tmp_dir w) (NUM_CHUNKS w) in
  Ok (yield_loop (transcriber w) content_type chunks 1).

(** [full_text += text] over the generator, then [strip]. *)
Definition transcribe_audio (w : World) : result string :=
  let* texts := transcribe_audio_generator w in
  Ok (strip (fold_left String.app texts "")).

End Server.

(** ** Vocabulary of the statements *)

(** The inclusive overlap test, as a proposition. *)
Definition touches (a : AsrSegment) (d : DiarSegment) : Prop :=
  (asr_start a <= diar_end d)%Q /\ (asr_end a >= diar_start d)%Q.

(** The offset of chunk [i] in closed form: [i] times 20 seconds. *)
Definition chunk_offset (i : nat) : Q := inject_Z (20 * Z.of_nat i).

(** Order of two transcript segments by start time. *)
Definition start_le (a b : AsrSegment) : Prop :=
  (asr_start a <= asr_start b)%Q.

(** Order of two (chunk index, local segment) pairs: by chunk index, then
    by local start time. *)
Definition key_le (p q : nat * AsrSegment) : Prop :=
  fst p < fst q \/ (fst p = fst q /\ start_le (snd p) (snd q)).

(** ** Concrete inputs used by the examples below *)

Module Examples.

Import MeetingAudio.

(** A transcript segment [{10, 12}] and a speaker turn [{12, 20}]. *)
Definition seg_10_12 : AsrSegment :=
  {| asr_id := 0; asr_start := 10; asr_end := 12; asr_text := Some " hello " |}.

Definition turn_12_20 : DiarSegment :=
  {| diar_speaker := "spk_2"; diar_start := 12; diar_end := 20 |}.

Definition turn_0_5 : DiarSegment :=
  {| diar_speaker := "spk_1"; diar_start := 0; diar_end := 5 |}.

(** A transcript segment outside both turns. *)
Definition seg_6_8 : AsrSegment :=
  {| asr_id := 1; asr_start := 6; asr_end := 8; asr_text := Some "lost" |}.

(** A transcript segment whose bounds 1.0078125 and 2.5078125 are binary
    fractions with more than two decimals. *)
Definition seg_fine : AsrSegment :=
  {| asr_id := 0; asr_start := 129 # 128; asr_end := 321 # 128;
     asr_text := Some "fine" |}.

Definition turn_0_20 : DiarSegment :=
  {| diar_speaker := "spk_1"; diar_start := 0; diar_end := 20 |}.

(** A 200 response that declares no content type. *)
Definition resp_plain : HttpResponse :=
  {| resp_status := 200; resp_headers := [("Content-Length", "3")];
     resp_body := [] |}.

(** A 200 response that declares one. *)
Definition resp_wav : HttpResponse :=
  {| resp_status := 200; resp_headers := [("content-type", "audio/wav")];
     resp_body := [] |}.

Definition seg_world : AsrSegment :=
  {| asr_id := 0; asr_start := 2; asr_end := 6; asr_text := Some "world" |}.

(** A collaborator that raises on the first chunk and succeeds after. *)
Definition failing_first : Transcriber :=
  fun i _ _ =>
    match i with
    | O => Raise (Exception "boom")
    | S _ => Ok [seg_world]
    end.

Definition world_failing_first : World :=
  {| http_response := resp_wav;
     tmp_path := "/tmp/asr_a.mp3";
     tmp_dir := "/tmp/audio_chunks_a";
     NUM_CHUNKS := 2;
     transcriber := failing_first;
     diarizer := fun _ => Ok [{| diar_speaker := "s1"; diar_start := 0; diar_end := 25 |};
                                 {| diar_speaker := "s2"; diar_start := 25; diar_end := 40 |}];
     uuid := "00000000-0000-4000-8000-000000000000" |}.

Definition text_failing_first : Server.Transcriber :=
  fun i _ _ =>
    match i with
    | O => Raise (Exception "boom")
    | S _ => Ok "world"
    end.

Definition server_world_failing_first : Server.World :=
  {| Server.http_response := resp_wav;
     Server.tmp_path := "/tmp/asr_a.mp3";
     Server.tmp_dir := "/tmp/audio_chunks_a";
     Server.NUM_CHUNKS := 2;
     Server.transcriber := text_failing_first |}.

(** Five turns of five seconds: the longest chunk the mock can return. *)
Definition draw_5s : SegmentDraw :=
  {| draw_duration := 5; draw_length := 60; draw_picks := fun k => k |}.

Definition draws_longest : list SegmentDraw := replicate 5 draw_5s.

Definition draw_2s : SegmentDraw :=
  {| draw_duration := 2; draw_length := 60; draw_picks := fun _ => 0 |}.

Definition draws_two_chunks (i : nat) : list SegmentDraw :=
  match i with
  | O => draws_longest
  | S _ => [draw_2s; draw_5s]
  end.

End Examples.

(** ** Further vocabulary *)

(** No blank at the head of [s]. *)
Definition head_ok (s : string) : Prop :=
  match s with
  | String c _ => isspace c = false
  | EmptyString => True
  end.

(** No blank at either end of [s]. *)
Definition stripped (s : string) : Prop :=
  head_ok s /\ head_ok (String.rev s).

(** Does the transcript segment pass the overlap test with some turn? *)
Definition touches_some (ds : list DiarSegment) (a : AsrSegment) : bool :=
  existsb (MeetingAudio.overlap a) ds.

(** Order of two aligned segments by start time. *)
Definition aligned_start_le (r1 r2 : AlignedSegment) : Prop :=
  (start r1 <= start r2)%Q.

(** What [random] may return in [diarize_audio]. *)
Definition turn_ok (dr : MeetingAudio.TurnDraw) : Prop :=
  (10 <= MeetingAudio.draw_turn dr)%Q /\ (MeetingAudio.draw_turn dr <= 80)%Q
  /\ MeetingAudio.draw_speaker dr < 4.

(** ** The pipelines with their scratch files

    The same two pipelines, with the files and directories they create and
    remove threaded through.  The collaborators do not touch the disk. *)

Module IO.

(** Regular files and directories that exist. *)
Record Disk : Type := {
  files : gset string;
  dirs : gset string
}.

(** A step returns or raises, and leaves a disk either way. *)
Definition io (A : Type) : Type := Disk -> result A * Disk.

Definition ret {A : Type} (a : A) : io A := fun d => (Ok a, d).

Definition lift {A : Type} (r : result A) : io A := fun d => (r, d).

Definition bind {A B : Type} (m : io A) (k : A -> io B) : io B :=
  fun d =>
    match m d with
    | (Ok a, d') => k a d'
    | (Raise e, d') => (Raise e, d')
    end.

(** [try: body finally: cleanup]: the cleanup runs on both exits; an
    exception of the cleanup replaces the outcome of the body. *)
Definition finally {A : Type} (body : io A) (cleanup : io unit) : io A :=
  fun d =>
    match body d with
    | (r, d') =>
        match cleanup d' with
        | (Ok _, d'') => (r, d'')
        | (Raise e, d'') => (Raise e, d'')
        end
    end.

(** [os.remove(path)] *)
Definition os_remove (path : string) : io unit :=
  fun d =>
    if decide (path ∈ files d)
    then (Ok tt, {| files := files d ∖ {[path]}; dirs := dirs d |})
    else (Raise (Exception ("[Errno 2] No such file or directory: '"
                            ++ path ++ "'")), d).

(** [Path.touch()], and the creation of the named temporary file. *)
Definition touch (path : string) : io unit :=
  fun d => (Ok tt, {| files := {[path]} ∪ files d; dirs := dirs d |}).

(** [tempfile.mkdtemp], [dir] being the name it chooses. *)
Definition mkdtemp (dir : string) : io string :=
  fun d => (Ok dir, {| files := files d; dirs := {[dir]} ∪ dirs d |}).

End IO.

Notation "'let!' x ':=' m 'in' k" := (IO.bind m (fun x => k))
  (at level 10, x name, m at level 100, k at level 200).

Module MeetingAudioIO.

Import IO.

Definition download_audio (resp : HttpResponse) (tmp_path : string)
  : io (string * option string) :=
  let! _ := lift (raise_for_status resp) in
  let content_type := headers_get (resp_headers resp) "Content-Type" in
  let! _ := touch tmp_path in
  ret (tmp_path, content_type).

(** The [for i in range(NUM_CHUNKS)] loop of [split_audio]. *)
Fixpoint touch_chunks (tmp_dir : string) (i n : nat) (chunks : list string)
  : io (list string) :=
  match n with
  | O => ret chunks
  | S n' =>
      let chunk_path := tmp_dir ++ "/" ++ MeetingAudio.chunk_name i in
      let! _ := touch chunk_path in
      touch_chunks tmp_dir (S i) n' (chunks ++ [chunk_path])%list
  end.

Definition split_audio (tmp_dir : string) (NUM_CHUNKS : nat)
  : io (list string) :=
  let! tmp_dir := mkdtemp tmp_dir in
  touch_chunks tmp_dir 0 NUM_CHUNKS [].

(** The [for chunk in chunks] loop of [process_meeting_audio]: the chunk
    file is removed after its transcription has returned. *)
Fixpoint chunks_loop (transcribe : MeetingAudio.Transcriber)
    (content_type : option string) (chunks : list string) (i : nat)
    (all_asr_segments : list AsrSegment) (offset : Q)
  : io (list AsrSegment) :=
  match chunks with
  | [] => ret all_asr_segments
  | chunk :: rest =>
      let! segs := lift (transcribe i chunk content_type) in
      let segs := map (MeetingAudio.shift offset) segs in
      let! _ := os_remove chunk in
      chunks_loop transcribe content_type rest (S i)
        (all_asr_segments ++ segs)%list (offset + CHUNK_DURATION_SEC)%Q
  end.

Definition process_meeting_audio (w : MeetingAudio.World)
  : io MeetingTranscript :=
  let! dl := download_audio (MeetingAudio.http_response w)
               (MeetingAudio.tmp_path w) in
  let tmp_file := fst dl in
  let content_type := snd dl in
  finally
    (let! chunks := split_audio (MeetingAudio.tmp_dir w)
                      (MeetingAudio.NUM_CHUNKS w) in
     let! all_asr_segments :=
       chunks_loop (MeetingAudio.transcriber w) content_type chunks 0 [] 0%Q in
     let! diar_segments := lift (MeetingAudio.diarizer w tmp_file) in
     let aligned_segments :=
       MeetingAudio.align_asr_with_diarization all_asr_segments diar_segments in
     ret (MeetingAudio.response (MeetingAudio.uuid w) aligned_segments))
    (os_remove tmp_file).

End MeetingAudioIO.

Module ServerIO.

Import IO.

Definition download_audio (resp : HttpResponse) (tmp_path : string)
  : io (string * string) :=
  let! _ := lift (raise_for_status resp) in
  let content_type :=
    default "audio/mpeg" (headers_get (resp_headers resp) "Content-Type") in
  let! _ := touch tmp_path in
  ret (tmp_path, content_type).

Definition split_audio (tmp_dir : string) (NUM_CHUNKS : nat)
  : io (list string) :=
  MeetingAudioIO.split_audio tmp_dir NUM_CHUNKS.

(** The loop of [transcribe_audio_generator] as its consumer drives it: the
    string of a chunk is yielded, then the [finally] clause removes the
    chunk file, then the next chunk is taken. *)
Fixpoint yield_loop (transcribe : Server.Transcriber) (content_type : string)
    (chunks : list string) (i : nat) : io (list string) :=
  match chunks with
  | [] => ret []
  | chunk :: rest =>
      let yielded :=
        match transcribe (i - 1) chunk (Some content_type) with
        | Ok text => text ++ " "
        | Raise e =>
            "[Error transcribing chunk " ++ pretty i ++ ": " ++ exn_str e ++ "] "
        end in
      let! _ := os_remove chunk in
      let! others := yield_loop transcribe content_type rest (S i) in
      ret (yielded :: others)
  end.

Definition transcribe_audio_generator (w : Server.World) : io (list string) :=
  let! dl := download_audio (Server.http_response w) (Server.tmp_path w) in
  let tmp_file := fst dl in
  let content_type := snd dl in
  let! chunks :=
    finally (split_audio (Server.tmp_dir w) (Server.NUM_CHUNKS w))
            (os_remove tmp_file) in
  yield_loop (Server.transcriber w) content_type chunks 1.

Definition transcribe_audio (w : Server.World) : io string :=
  let! texts := transcribe_audio_generator w in
  ret (strip (fold_left String.app texts "")).

End ServerIO.

(** The chunk files that the loop of [process_meeting_audio] has removed
    when it is left: those of the chunks before the first failure. *)
Fixpoint removed_chunks (transcribe : MeetingAudio.Transcriber)
    (content_type : option string) (chunks : list string) (i : nat)
  : list string :=
  match chunks with
  | [] => []
  | chunk :: rest =>
      match transcribe i chunk content_type with
      | Ok _ => chunk :: removed_chunks transcribe content_type rest (S i)
      | Raise _ => []
      end
  end.

(** The path of chunk [i] below [dir]. *)
Definition chunk_path (dir : string) (i : nat) : string :=
  dir ++ "/" ++ MeetingAudio.chunk_name i.

(** A decimal numeral followed by more text: its first character is not a
    dot, and it is zero only when a dot follows. *)
Definition numeral_head (s : string) : Prop :=
  exists c rest, s = String c rest /\ c <> "."%char
                 /\ (c <> "0"%char \/ exists rest', rest = String "." rest').

(** ** The normalisation loop on the objects it updates

    Lines 203-211 of [process_meeting_audio] once more, as a statement
    about the values it writes needs them: the segment dicts are objects of
    a store, updated in place through the references that the collaborator
    hands back, and the numbers are binary64 floats with the addition of
    the machine. *)

Module Normalizer.

(** [float(n)] for a small non-negative [int] [n]. *)
Definition of_int (n : Z) : PrimFloat.float :=
  PrimFloat.of_uint63 (Uint63.of_Z n).

(** A segment dict, with the keys that are read or written. *)
Record Segment : Type := {
  seg_id : nat;
  seg_start : PrimFloat.float;
  seg_end : PrimFloat.float;
  seg_text : option string
}.

(** [s["start"] += offset; s["end"] += offset] *)
Definition shift (offset : PrimFloat.float) (s : Segment) : Segment :=
  {| seg_id := seg_id s;
     seg_start := PrimFloat.add (seg_start s) offset;
     seg_end := PrimFloat.add (seg_end s) offset;
     seg_text := seg_text s |}.

(** [for s in segs: ...]: each object is updated where it is, once for
    each time the list refers to it. *)
Fixpoint shift_all (offset : PrimFloat.float) (segs : list nat)
    (store : gmap nat Segment) : gmap nat Segment :=
  match segs with
  | [] => store
  | s :: rest => shift_all offset rest (alter (shift offset) s store)
  end.

(** The [for chunk in chunks] loop in a run where every call returns:
    [returned] holds, chunk after chunk, the list handed back by the call,
    as references into the store.  [offset += CHUNK_DURATION_SEC] adds the
    [int] 20 to a float. *)
Fixpoint normalize_loop (returned : list (list nat))
    (all_asr_segments : list nat) (offset : PrimFloat.float)
    (store : gmap nat Segment) : list nat * gmap nat Segment :=
  match returned with
  | [] => (all_asr_segments, store)
  | segs :: rest =>
      normalize_loop rest (all_asr_segments ++ segs)%list
        (PrimFloat.add offset (of_int 20)) (shift_all offset segs store)
  end.

(** The loop entered with [all_asr_segments = []] and [offset = 0.0]. *)
Definition normalize (returned : list (list nat)) (store : gmap nat Segment)
  : list nat * gmap nat Segment :=
  normalize_loop returned [] PrimFloat.zero store.

End Normalizer.

Module FloatExamples.

Import PrimFloat Normalizer.

(** Two dict objects: [{0.0, 5.0, "hello"}] and [{2.24, 4.5, "world"}],
    the floats being the binary64 values nearest to these decimals. *)
Definition store_two : gmap nat Segment :=
  <[1 := {| seg_id := 0; seg_start := 0x1.1eb851eb851ecp+1%float;
            seg_end := 0x1.2p+2%float; seg_text := Some "world" |}]>
    (<[0 := {| seg_id := 0; seg_start := 0x0p+0%float;
               seg_end := 0x1.4p+2%float; seg_text := Some "hello" |}]> ∅).

(** Chunk 0 returned the list [[object 0]], chunk 1 the list [[object 1]]. *)
Definition returned_two : list (list nat) := [[0]; [1]].

(** The collaborator hands the same list back for both chunks. *)
Definition returned_same : list (list nat) := [[1]; [1]].

End FloatExamples.

(** ** Further concrete inputs *)

Module MoreExamples.

Import MeetingAudio.

Definition seg_0_5 : AsrSegment :=
  {| asr_id := 0; asr_start := 0; asr_end := 5; asr_text := Some "hello" |}.

Definition turns_s1_s2 : list DiarSegment :=
  [{| diar_speaker := "s1"; diar_start := 0; diar_end := 25 |};
   {| diar_speaker := "s2"; diar_start := 25; diar_end := 40 |}].

(** Both chunks transcribed: the two chunks of twenty seconds of a short
    meeting. *)
Definition two_chunks : Transcriber :=
  fun i _ _ =>
    match i with
    | O => Ok [seg_0_5]
    | S _ => Ok [Examples.seg_world]
    end.

Definition world_ok : World :=
  {| http_response := Examples.resp_wav;
     tmp_path := "/tmp/asr_a.mp3";
     tmp_dir := "/tmp/audio_chunks_a";
     NUM_CHUNKS := 2;
     transcriber := two_chunks;
     diarizer := fun _ => Ok turns_s1_s2;
     uuid := "00000000-0000-4000-8000-000000000000" |}.

Definition resp_404 : HttpResponse :=
  {| resp_status := 404; resp_headers := []; resp_body := [] |}.

Definition world_404 : World :=
  {| http_response := resp_404;
     tmp_path := "/tmp/asr_a.mp3";
     tmp_dir := "/tmp/audio_chunks_a";
     NUM_CHUNKS := 2;
     transcriber := two_chunks;
     diarizer := fun _ => Ok turns_s1_s2;
     uuid := "00000000-0000-4000-8000-000000000000" |}.

Definition world_no_diarization : World :=
  {| http_response := Examples.resp_wav;
     tmp_path := "/tmp/asr_a.mp3";
     tmp_dir := "/tmp/audio_chunks_a";
     NUM_CHUNKS := 2;
     transcriber := two_chunks;
     diarizer := fun _ => Raise (Exception "diarizer down");
     uuid := "00000000-0000-4000-8000-000000000000" |}.

(** The second chunk fails, the first does not. *)
Definition failing_second : Transcriber :=
  fun i _ _ =>
    match i with
    | O => Ok [seg_0_5]
    | S _ => Raise (Exception "boom")
    end.

Definition world_failing_second : World :=
  {| http_response := Examples.resp_wav;
     tmp_path := "/tmp/asr_a.mp3";
     tmp_dir := "/tmp/audio_chunks_a";
     NUM_CHUNKS := 3;
     transcriber := failing_second;
     diarizer := fun _ => Ok turns_s1_s2;
     uuid := "00000000-0000-4000-8000-000000000000" |}.

Definition turn_80s : TurnDraw := {| draw_speaker := 1; draw_turn := 80 |}.

Definition turns_30 : list TurnDraw := replicate 30 turn_80s.

(** A world served by the two mocks. *)
Definition mock_world (draws : nat -> list SegmentDraw)
    (turns : list TurnDraw) (n : nat) : World :=
  {| http_response := Examples.resp_wav;
     tmp_path := "/tmp/asr_a.mp3";
     tmp_dir := "/tmp/audio_chunks_a";
     NUM_CHUNKS := n;
     transcriber := mock_transcriber draws;
     diarizer := fun _ => Ok (diarize_audio turns);
     uuid := "00000000-0000-4000-8000-000000000000" |}.

Definition empty_disk : IO.Disk := {| IO.files := ∅; IO.dirs := ∅ |}.

Definition server_world_404 : Server.World :=
  {| Server.http_response := resp_404;
     Server.tmp_path := "/tmp/asr_a.mp3";
     Server.tmp_dir := "/tmp/audio_chunks_a";
     Server.NUM_CHUNKS := 2;
     Server.transcriber := Examples.text_failing_first |}.

End MoreExamples.

(** * Properties *)

(** ** Rounding *)

Section Rounding.

Local Open Scope Q_scope.

Lemma round_half_even_floor (x : Q) :
  (Qfloor x <= round_half_even x <= Qfloor x + 1)%Z.
Proof.
  unfold round_half_even; cbv zeta.
  destruct (Qcompare _ _); [destruct (Z.even _)| |]; lia.
Qed.

Lemma round_half_even_ge (x : Q) (n : Z) :
  inject_Z n <= x -> (n <= round_half_even x)%Z.
Proof.
  intros H. apply Qfloor_resp_le in H. rewrite Qfloor_Z in H.
  pose proof (round_half_even_floor x). lia.
Qed.

Lemma round_half_even_le (x : Q) (n : Z) :
  x <= inject_Z n -> (round_half_even x <= n)%Z.
Proof.
  intros H. pose proof (Qfloor_resp_le _ _ H) as Hf. rewrite Qfloor_Z in Hf.
  destruct (Z.eq_dec (Qfloor x) n) as [E|E].
  - unfold round_half_even; cbv zeta. rewrite E.
    assert (L : Qcompare (x - inject_Z n) (1 # 2) = Lt)
      by (apply (proj1 (Qlt_alt _ _)); lra).
    rewrite L. lia.
  - pose proof (round_half_even_floor x). lia.
Qed.

Lemma round_half_even_Z (n : Z) : round_half_even (inject_Z n) = n.
Proof.
  apply Z.le_antisymm.
  - apply round_half_even_le, Qle_refl.
  - apply round_half_even_ge, Qle_refl.
Qed.

Lemma round_half_even_comp (x y : Q) :
  x == y -> round_half_even x = round_half_even y.
Proof.
  intros H. unfold round_half_even; cbv zeta.
  rewrite (Qfloor_comp _ _ H).
  assert (E : x - inject_Z (Qfloor y) == y - inject_Z (Qfloor y))
    by (rewrite H; reflexivity).
  rewrite (Qcompare_comp _ _ E _ _ (Qeq_refl (1 # 2))). reflexivity.
Qed.

Lemma round_half_even_mono (x y : Q) :
  x <= y -> (round_half_even x <= round_half_even y)%Z.
Proof.
  intros H. pose proof (Qfloor_resp_le _ _ H) as Hf.
  destruct (Z.eq_dec (Qfloor x) (Qfloor y)) as [E|E].
  - unfold round_half_even; cbv zeta. rewrite E.
    destruct (Qcompare (x - inject_Z (Qfloor y)) (1 # 2)) eqn:Cx;
      destruct (Qcompare (y - inject_Z (Qfloor y)) (1 # 2)) eqn:Cy;
      try (destruct (Z.even (Qfloor y)); lia);
      first [ apply (proj2 (Qeq_alt _ _)) in Cx
            | apply (proj2 (Qlt_alt _ _)) in Cx
            | apply (proj2 (Qgt_alt _ _)) in Cx ];
      first [ apply (proj2 (Qeq_alt _ _)) in Cy
            | apply (proj2 (Qlt_alt _ _)) in Cy
            | apply (proj2 (Qgt_alt _ _)) in Cy ];
      exfalso; lra.
  - pose proof (round_half_even_floor x).
    pose proof (round_half_even_floor y). lia.
Qed.

Lemma round2_value (x : Q) : round2 x == round_half_even (x * 100) # 100.
Proof. apply Qred_correct. Qed.

Lemma cent_times_100 (n : Z) : (n # 100) * 100 == inject_Z n.
Proof. unfold Qeq, Qmult, inject_Z; simpl. lia. Qed.

Lemma round2_comp (x y : Q) : x == y -> round2 x = round2 y.
Proof.
  intros H. unfold round2. f_equal. f_equal.
  apply round_half_even_comp. rewrite H. reflexivity.
Qed.

(** Rounding again changes nothing. *)
Lemma round2_idem (x : Q) : round2 (round2 x) = round2 x.
Proof.
  assert (E : round2 x * 100 == inject_Z (round_half_even (x * 100)))
    by (rewrite round2_value; apply cent_times_100).
  unfold round2 at 1.
  rewrite (round_half_even_comp _ _ E), round_half_even_Z. reflexivity.
Qed.

Lemma round2_mono (x y : Q) : x <= y -> round2 x <= round2 y.
Proof.
  intros H. rewrite !round2_value.
  assert (M : (round_half_even (x * 100) <= round_half_even (y * 100))%Z)
    by (apply round_half_even_mono; lra).
  unfold Qle; simpl. lia.
Qed.

(** Whole numbers are their own rounding. *)
Lemma round2_Z (n : Z) : round2 (inject_Z n) == inject_Z n.
Proof.
  rewrite round2_value.
  assert (E : inject_Z n * 100 == inject_Z (n * 100))
    by (unfold Qeq, Qmult, inject_Z; simpl; lia).
  rewrite (round_half_even_comp _ _ E), round_half_even_Z.
  unfold Qeq, inject_Z; simpl. lia.
Qed.

Lemma round2_le_Z (x : Q) (n : Z) : x <= inject_Z n -> round2 x <= inject_Z n.
Proof. intros H. rewrite <- (round2_Z n). now apply round2_mono. Qed.

Lemma round2_ge_Z (x : Q) (n : Z) : inject_Z n <= x -> inject_Z n <= round2 x.
Proof. intros H. rewrite <- (round2_Z n). now apply round2_mono. Qed.

End Rounding.

(** ** The text generator *)

Lemma string_length_app (s1 s2 : string) :
  String.length (s1 ++ s2) = String.length s1 + String.length s2.
Proof. induction s1 as [|c s1 IH]; simpl; [reflexivity | now rewrite IH]. Qed.

(** The loop of [generate_random_text] leaves by its guard, never for lack
    of fuel: the text it returns has reached the requested length. *)
Lemma generate_loop_full (sentences : list string) (fuel : nat)
    (picks : nat -> nat) (k length : nat) (text : string) :
  length <= String.length text + fuel ->
  length <= String.length (generate_loop sentences fuel picks k length text).
Proof.
  revert k text. induction fuel as [|fuel IH]; intros k text H; simpl.
  - lia.
  - destruct (Nat.ltb_spec (String.length text) length) as [L|L]; [|lia].
    apply IH. rewrite !string_length_app. simpl. lia.
Qed.

(** ** The aligner *)

Section Aligner.

Import MeetingAudio.
Local Open Scope list_scope.

Lemma overlap_touches (a : AsrSegment) (d : DiarSegment) :
  overlap a d = true <-> touches a d.
Proof.
  unfold overlap, touches. rewrite andb_true_iff, !Qle_bool_iff. tauto.
Qed.

Lemma overlap_not_touches (a : AsrSegment) (d : DiarSegment) :
  overlap a d = false <-> ~ touches a d.
Proof.
  rewrite <- overlap_touches. destruct (overlap a d); split; congruence.
Qed.

Lemma align_loop_acc (asr : list AsrSegment) (ds : list DiarSegment)
    (results : list AlignedSegment) :
  align_loop asr ds results
  = results ++ flat_map (fun a => align_one a ds) asr.
Proof.
  revert results. induction asr as [|a asr IH]; intros results; simpl.
  - now rewrite app_nil_r.
  - rewrite IH. now rewrite <- app_assoc.
Qed.

Lemma align_flat_map (asr : list AsrSegment) (ds : list DiarSegment) :
  align_asr_with_diarization asr ds = flat_map (fun a => align_one a ds) asr.
Proof. unfold align_asr_with_diarization. now rewrite align_loop_acc. Qed.

Lemma align_app (l1 l2 : list AsrSegment) (ds : list DiarSegment) :
  align_asr_with_diarization (l1 ++ l2) ds
  = align_asr_with_diarization l1 ds ++ align_asr_with_diarization l2 ds.
Proof. rewrite !align_flat_map. apply flat_map_app. Qed.

Lemma align_cons (a : AsrSegment) (l : list AsrSegment) (ds : list DiarSegment) :
  align_asr_with_diarization (a :: l) ds
  = align_one a ds ++ align_asr_with_diarization l ds.
Proof. now rewrite !align_flat_map. Qed.

Lemma align_one_first (a : AsrSegment) (ds1 ds2 : list DiarSegment)
    (d : DiarSegment) :
  (forall d', In d' ds1 -> ~ touches a d') ->
  touches a d ->
  align_one a (ds1 ++ d :: ds2) = [aligned a d].
Proof.
  intros Hpre Hd. induction ds1 as [|d1 ds1 IH]; simpl.
  - apply overlap_touches in Hd. now rewrite Hd.
  - assert (E : overlap a d1 = false)
      by (apply overlap_not_touches, Hpre; now left).
    rewrite E. apply IH. intros d' Hin. apply Hpre. now right.
Qed.

Lemma align_one_none (a : AsrSegment) (ds : list DiarSegment) :
  (forall d, In d ds -> ~ touches a d) -> align_one a ds = [].
Proof.
  intros H. induction ds as [|d ds IH]; simpl; [reflexivity|].
  assert (E : overlap a d = false)
    by (apply overlap_not_touches, H; now left).
  rewrite E. apply IH. intros d' Hin. apply H. now right.
Qed.

(** What the turn for [a] appends is empty or one segment built from [a]
    and from a speaker turn that [a] touches. *)
Lemma align_one_inv (a : AsrSegment) (ds : list DiarSegment) (r : AlignedSegment) :
  In r (align_one a ds) ->
  exists d, In d ds /\ touches a d /\ r = aligned a d.
Proof.
  induction ds as [|d ds IH]; simpl; [tauto|].
  destruct (overlap a d) eqn:E.
  - intros [<-|[]]. exists d. split; [now left|].
    split; [now apply overlap_touches | reflexivity].
  - intros Hin. destruct (IH Hin) as (d' & Hd' & Ht & ->).
    exists d'. split; [now right | now split].
Qed.

End Aligner.

Import MeetingAudio.
Local Open Scope list_scope.

(** C1.  For every transcript segment [a] and diarization list, the aligner
    labels [a] with the first speaker turn [d], in list order, that passes
    the inclusive test [a.start <= d.end and a.end >= d.start]: when no turn
    before [d] passes it and [d] does, the turn for [a] contributes exactly
    one aligned segment carrying [d]'s speaker, between the contributions of
    the segments before and after [a].  In particular a transcript segment
    [{10, 12}] and a speaker turn [{12, 20}], which share the single point
    12, pass the test and give one aligned segment with that turn's
    speaker. *)
Theorem align_selects_first_touching
    (pre post : list AsrSegment) (a : AsrSegment)
    (ds1 ds2 : list DiarSegment) (d : DiarSegment) :
  (forall d', In d' ds1 -> ~ touches a d') ->
  touches a d ->
  align_asr_with_diarization (pre ++ a :: post) (ds1 ++ d :: ds2)
  = align_asr_with_diarization pre (ds1 ++ d :: ds2)
    ++ {| speaker := diar_speaker d;
          start := round2 (asr_start a);
          end_ := round2 (asr_end a);
          text := strip (default ""%string (asr_text a)) |}
    :: align_asr_with_diarization post (ds1 ++ d :: ds2)
  /\ forall (i : nat) (txt : option string) (spk : string),
       let a0 := {| asr_id := i; asr_start := 10; asr_end := 12;
                    asr_text := txt |} in
       let d0 := {| diar_speaker := spk; diar_start := 12; diar_end := 20 |} in
       touches a0 d0
       /\ align_asr_with_diarization [a0] [d0]
          = [{| speaker := spk; start := 10; end_ := 12;
                text := strip (default ""%string txt) |}].
Proof.
  intros Hpre Hd. split.
  - rewrite align_app, align_cons.
    now rewrite (align_one_first a ds1 ds2 d Hpre Hd).
  - intros i txt spk a0 d0. split.
    + split; unfold Qle; simpl; lia.
    + reflexivity.
Qed.

Lemma align_selects_first_touching_witness :
  align_asr_with_diarization [Examples.seg_10_12]
    [Examples.turn_0_5; Examples.turn_12_20]
  = [{| speaker := "spk_2"; start := 10; end_ := 12; text := "hello" |}].
Proof.
  refine (proj1 (align_selects_first_touching [] [] Examples.seg_10_12
                   [Examples.turn_0_5] [] Examples.turn_12_20 _ _)).
  - intros d' [<-|[]] [H1 H2]. unfold Qle in H1; simpl in H1. lia.
  - split; unfold Qle; simpl; lia.
Defined.

(** C5.  A transcript segment that touches no speaker turn contributes no
    aligned segment; the aligned list, the full transcript and the whole
    response are those obtained without it, so the other segments are
    aligned as before and nothing is raised. *)
Theorem unmatched_segment_dropped
    (pre post : list AsrSegment) (a : AsrSegment) (ds : list DiarSegment)
    (id : string) :
  (forall d, In d ds -> ~ touches a d) ->
  align_asr_with_diarization [a] ds = []
  /\ align_asr_with_diarization (pre ++ a :: post) ds
     = align_asr_with_diarization (pre ++ post) ds
  /\ full_text (align_asr_with_diarization (pre ++ a :: post) ds)
     = full_text (align_asr_with_diarization (pre ++ post) ds)
  /\ response id (align_asr_with_diarization (pre ++ a :: post) ds)
     = response id (align_asr_with_diarization (pre ++ post) ds).
Proof.
  intros H.
  assert (E1 : align_asr_with_diarization [a] ds = []).
  { rewrite align_cons, (align_one_none a ds H). reflexivity. }
  assert (E2 : align_asr_with_diarization (pre ++ a :: post) ds
               = align_asr_with_diarization (pre ++ post) ds).
  { rewrite !align_app, align_cons, (align_one_none a ds H). reflexivity. }
  rewrite E2. auto.
Qed.

Lemma unmatched_segment_dropped_witness :
  align_asr_with_diarization
    [Examples.seg_10_12; Examples.seg_6_8; Examples.seg_10_12]
    [Examples.turn_0_5; Examples.turn_12_20]
  = align_asr_with_diarization
      [Examples.seg_10_12; Examples.seg_10_12]
      [Examples.turn_0_5; Examples.turn_12_20].
Proof.
  refine (proj1 (proj2 (unmatched_segment_dropped [Examples.seg_10_12]
                          [Examples.seg_10_12] Examples.seg_6_8
                          [Examples.turn_0_5; Examples.turn_12_20] "" _))).
  intros d [<-|[<-|[]]] [H1 H2].
  - unfold Qle in H1; simpl in H1. lia.
  - unfold Qge, Qle in H2; simpl in H2. lia.
Defined.

(** C6, as stated, fails: the aligner rounds both bounds to two decimals.
    The transcript segment [{1.0078125, 2.5078125}] is aligned to
    [{1.01, 2.51}], which are not its bounds. *)
Lemma aligned_bounds_not_verbatim :
  align_asr_with_diarization [Examples.seg_fine] [Examples.turn_0_20]
  = [{| speaker := "spk_1"; start := 101 # 100; end_ := 251 # 100;
        text := "fine" |}]
  /\ ~ (101 # 100 == asr_start Examples.seg_fine)%Q
  /\ ~ (251 # 100 == asr_end Examples.seg_fine)%Q
  /\ ~ (forall asr ds r,
          In r (align_asr_with_diarization asr ds) ->
          exists a, In a asr /\ (start r == asr_start a)%Q
                    /\ (end_ r == asr_end a)%Q).
Proof.
  split; [reflexivity|].
  split; [intros H; unfold Qeq in H; simpl in H; lia|].
  split; [intros H; unfold Qeq in H; simpl in H; lia|].
  intros H.
  destruct (H [Examples.seg_fine] [Examples.turn_0_20]
              {| speaker := "spk_1"; start := 101 # 100; end_ := 251 # 100;
                 text := "fine" |}) as (a & Ha & Hs & _).
  - left. reflexivity.
  - destruct Ha as [<-|[]]. unfold Qeq in Hs; simpl in Hs. lia.
Qed.

(** C6, amended.  Every aligned segment comes from one transcript segment
    [a] and one speaker turn [d] that [a] touches; its start and end are the
    global start and end of [a] rounded to two decimals, its text is the
    stripped text of [a], and [d] contributes the speaker label only. *)
Theorem aligned_bounds_rounded
    (asr : list AsrSegment) (ds : list DiarSegment) (r : AlignedSegment) :
  In r (align_asr_with_diarization asr ds) ->
  exists a d,
    In a asr /\ In d ds /\ touches a d
    /\ start r = round2 (asr_start a)
    /\ end_ r = round2 (asr_end a)
    /\ text r = strip (default ""%string (asr_text a))
    /\ speaker r = diar_speaker d.
Proof.
  rewrite align_flat_map, in_flat_map.
  intros (a & Ha & Hr). destruct (align_one_inv a ds r Hr) as (d & Hd & Ht & ->).
  exists a, d. simpl. auto 10.
Qed.

Lemma aligned_bounds_rounded_witness :
  exists a d,
    In a [Examples.seg_fine] /\ In d [Examples.turn_0_20] /\ touches a d
    /\ (101 # 100)%Q = round2 (asr_start a)
    /\ (251 # 100)%Q = round2 (asr_end a)
    /\ "fine"%string = strip (default ""%string (asr_text a))
    /\ "spk_1"%string = diar_speaker d.
Proof.
  refine (aligned_bounds_rounded [Examples.seg_fine] [Examples.turn_0_20]
            {| speaker := "spk_1"; start := 101 # 100; end_ := 251 # 100;
               text := "fine" |} _).
  left. reflexivity.
Defined.

(** ** The response assembler *)

Section Assembler.

Local Open Scope Q_scope.

Lemma Qgt_bool_true (x y : Q) : Qgt_bool x y = true -> y < x.
Proof.
  unfold Qgt_bool. intros H. apply Qnot_le_lt. intros L.
  apply Qle_bool_iff in L. rewrite L in H. discriminate.
Qed.

Lemma Qgt_bool_false (x y : Q) : Qgt_bool x y = false -> x <= y.
Proof.
  unfold Qgt_bool. intros H. apply Qle_bool_iff.
  destruct (Qle_bool x y); [reflexivity | discriminate].
Qed.

(** The running maximum ends on an element it has seen, no smaller than
    where it started nor than anything it has passed. *)
Lemma running_max_spec (rest : list Q) (m : Q) :
  let r := fold_left (fun m y => if Qgt_bool y m then y else m) rest m in
  In r (m :: rest) /\ m <= r /\ Forall (fun y => y <= r) rest.
Proof.
  revert m. induction rest as [|y rest IH]; intros m; simpl.
  - split; [now left|]. split; [apply Qle_refl | constructor].
  - destruct (Qgt_bool y m) eqn:E.
    + apply Qgt_bool_true in E.
      destruct (IH y) as (Hin & Hle & Hall). simpl in *.
      split; [right; exact Hin|]. split; [lra|].
      constructor; assumption.
    + apply Qgt_bool_false in E.
      destruct (IH m) as (Hin & Hle & Hall). simpl in *.
      split; [destruct Hin as [Hin|Hin]; [now left | right; now right]|].
      split; [assumption|]. constructor; [lra | assumption].
Qed.

Lemma py_max_spec (x : Q) (l : list Q) (d : Q) :
  In (py_max (x :: l) d) (x :: l)
  /\ Forall (fun y => y <= py_max (x :: l) d) (x :: l).
Proof.
  destruct (running_max_spec l x) as (Hin & Hle & Hall).
  split; [exact Hin|]. constructor; assumption.
Qed.

End Assembler.

(** C8.  The [duration] field of the response is 0 for an empty aligned
    list; for a non-empty one it is the end of one of the aligned segments
    and no aligned segment ends later. *)
Theorem duration_is_max_end (id : string) :
  duration (response id []) = 0%Q
  /\ forall (s : AlignedSegment) (l : list AlignedSegment),
       In (duration (response id (s :: l))) (map end_ (s :: l))
       /\ Forall (fun x => (end_ x <= duration (response id (s :: l)))%Q)
            (s :: l).
Proof.
  split; [reflexivity|]. intros s l.
  destruct (py_max_spec (end_ s) (map end_ l) 0%Q) as [Hin Hall].
  split; [exact Hin|].
  apply List.Forall_forall. intros x Hx.
  rewrite List.Forall_forall in Hall. apply Hall.
  change (In (end_ x) (map end_ (s :: l))). apply in_map, Hx.
Qed.

(** C9.  The [speakers] field of the response is sorted in ascending order,
    has no duplicate, and holds exactly the speaker labels of the aligned
    segments. *)
Theorem speakers_sorted_distinct (id : string) (l : list AlignedSegment) :
  StronglySorted String.le (speakers (response id l))
  /\ NoDup (speakers (response id l))
  /\ forall x, In x (speakers (response id l)) <-> In x (map speaker l).
Proof.
  simpl. unfold speakers_of. split; [|split].
  - apply StronglySorted_merge_sort; apply _.
  - rewrite merge_sort_Permutation. apply NoDup_elements.
  - intros x. rewrite <- !list_elem_of_In, merge_sort_Permutation.
    now rewrite elem_of_elements, elem_of_list_to_set.
Qed.

(** C7, evaluated on a 200 response with no [Content-Type] header:
    [download_audio] of [meeting_audio_mcp.py] returns no content type
    ([None]), where [download_audio] of [server.py] returns the default
    ["audio/mpeg"]; on a response that declares a content type both return
    the declared one. *)
Theorem download_audio_content_type (p : string) :
  MeetingAudio.download_audio Examples.resp_plain p = Ok (p, None)
  /\ Server.download_audio Examples.resp_plain p = Ok (p, "audio/mpeg"%string)
  /\ MeetingAudio.download_audio Examples.resp_wav p
     = Ok (p, Some "audio/wav"%string)
  /\ Server.download_audio Examples.resp_wav p = Ok (p, "audio/wav"%string).
Proof. repeat split. Qed.

(** ** The chunk loops *)

Section ChunkLoop.

Lemma chunk_offset_0 : chunk_offset 0 = 0%Q.
Proof. reflexivity. Qed.

(** [offset += CHUNK_DURATION_SEC] takes the offset of chunk [i] to the
    offset of chunk [i + 1]. *)
Lemma chunk_offset_S (i : nat) :
  (chunk_offset i + CHUNK_DURATION_SEC)%Q = chunk_offset (S i).
Proof.
  unfold chunk_offset, CHUNK_DURATION_SEC, Qplus, inject_Z; simpl Qnum;
    simpl Qden. f_equal. lia.
Qed.

Lemma chunk_offset_times (i : nat) :
  (chunk_offset i == inject_Z (Z.of_nat i) * CHUNK_DURATION_SEC)%Q.
Proof.
  unfold chunk_offset, CHUNK_DURATION_SEC, Qeq, Qmult, inject_Z; simpl. lia.
Qed.

Lemma chunks_loop_ok (tr : Transcriber) (ct : option string)
    (f : nat -> string) (segs : nat -> list AsrSegment) (n : nat) :
  forall (i : nat) (acc : list AsrSegment),
    (forall j, i <= j < i + n -> tr j (f j) ct = Ok (segs j)) ->
    chunks_loop tr ct (map f (seq i n)) i acc (chunk_offset i)
    = Ok (acc ++ flat_map (fun j => map (shift (chunk_offset j)) (segs j))
                   (seq i n)).
Proof.
  induction n as [|n IH]; intros i acc H; simpl.
  - now rewrite app_nil_r.
  - rewrite (H i) by lia. simpl. rewrite chunk_offset_S, IH.
    + now rewrite <- app_assoc.
    + intros j Hj. apply H. lia.
Qed.

(** The strings yielded by [transcribe_audio_generator]: one per chunk,
    the text and a blank, or the error marker. *)
Lemma yield_loop_spec (tr : Server.Transcriber) (ct : string)
    (f : nat -> string) (n : nat) :
  forall i : nat,
    Server.yield_loop tr ct (map f (seq i n)) (S i)
    = map (fun j =>
             match tr j (f j) (Some ct) with
             | Ok text => text ++ " "
             | Raise e =>
                 "[Error transcribing chunk " ++ pretty (S j) ++ ": "
                 ++ exn_str e ++ "] "
             end)%string (seq i n).
Proof.
  induction n as [|n IH]; intros i; simpl; [reflexivity|].
  rewrite Nat.sub_0_r, IH. reflexivity.
Qed.

End ChunkLoop.

(** ** The normalisation loop in binary64 *)

Section Binary64.

Import PrimFloat Normalizer.

Lemma shift_all_other (offset : float) (segs : list nat) :
  forall (store : gmap nat Segment) (r : nat),
    r ∉ segs -> shift_all offset segs store !! r = store !! r.
Proof.
  induction segs as [|a rest IH]; intros store r Hr; [reflexivity|].
  apply not_elem_of_cons in Hr as [Hne Hr]. simpl.
  rewrite IH by exact Hr. apply lookup_alter_ne. congruence.
Qed.

(** An object that a list refers to once is shifted once. *)
Lemma shift_all_once (offset : float) (segs : list nat) :
  forall (store : gmap nat Segment) (r : nat) (s : Segment),
    NoDup segs -> r ∈ segs -> store !! r = Some s ->
    shift_all offset segs store !! r = Some (shift offset s).
Proof.
  induction segs as [|a rest IH]; intros store r s Hnd Hin Hs.
  - now apply elem_of_nil in Hin.
  - apply NoDup_cons in Hnd as [Ha Hnd]. simpl.
    apply elem_of_cons in Hin as [->|Hin].
    + rewrite shift_all_other by exact Ha.
      now rewrite lookup_alter_eq, Hs.
    + apply IH; [exact Hnd | exact Hin|].
      rewrite lookup_alter_ne; [exact Hs|]. intros ->. contradiction.
Qed.

Lemma elem_of_concat_lookup (returned : list (list nat)) (i : nat)
    (segs : list nat) (r : nat) :
  returned !! i = Some segs -> r ∈ segs -> r ∈ concat returned.
Proof.
  intros Hi Hr. apply list_elem_of_In, in_concat. exists segs.
  split; apply list_elem_of_In; [|exact Hr].
  eapply list_elem_of_lookup_2. exact Hi.
Qed.

(** The loop entered at chunk [k] with the offset of chunk [k]. *)
Lemma normalize_loop_spec (returned : list (list nat)) :
  forall (all : list nat) (offset : float) (store : gmap nat Segment)
         (k : nat),
    NoDup (concat returned) ->
    offset = of_int (20 * Z.of_nat k) ->
    (forall i, i < length returned ->
       add (of_int (20 * Z.of_nat (k + i))) (of_int 20)
       = of_int (20 * Z.of_nat (S (k + i)))) ->
    fst (normalize_loop returned all offset store) = all ++ concat returned
    /\ (forall i segs r s,
          returned !! i = Some segs -> r ∈ segs -> store !! r = Some s ->
          snd (normalize_loop returned all offset store) !! r
          = Some (shift (of_int (20 * Z.of_nat (k + i))) s))
    /\ (forall r, r ∉ concat returned ->
          snd (normalize_loop returned all offset store) !! r = store !! r).
Proof.
  induction returned as [|segs rest IH]; intros all offset store k Hnd Hoff Hex.
  - simpl. rewrite app_nil_r. split; [reflexivity|]. split; [|reflexivity].
    intros i segs r s Hi. rewrite lookup_nil in Hi. discriminate Hi.
  - simpl concat in Hnd. apply NoDup_app in Hnd as (Hsegs & Hdisj & Hrest).
    assert (Hoff' : add offset (of_int 20) = of_int (20 * Z.of_nat (S k))).
    { rewrite Hoff. specialize (Hex 0 ltac:(simpl; lia)).
      now rewrite Nat.add_0_r in Hex. }
    destruct (IH (all ++ segs) (add offset (of_int 20))
                (shift_all offset segs store) (S k) Hrest Hoff')
      as (IH1 & IH2 & IH3).
    { intros i Hi. specialize (Hex (S i) ltac:(simpl; lia)).
      now replace (k + S i) with (S k + i) in Hex by lia. }
    simpl normalize_loop. split; [|split].
    + rewrite IH1. simpl concat. now rewrite app_assoc.
    + intros i segs' r s Hi Hr Hs. destruct i as [|i].
      * injection Hi as <-. rewrite IH3 by now apply Hdisj.
        rewrite Nat.add_0_r, <- Hoff. now apply shift_all_once.
      * simpl in Hi. replace (k + S i) with (S k + i) by lia.
        apply (IH2 i segs' r s Hi Hr).
        rewrite shift_all_other; [exact Hs|].
        intros Hin. apply (Hdisj r Hin).
        eapply elem_of_concat_lookup; eassumption.
    + intros r Hr. simpl concat in Hr.
      apply not_elem_of_app in Hr as [Hr1 Hr2].
      rewrite IH3 by exact Hr2. now apply shift_all_other.
Qed.

(** In binary64 the running offset is exact for the first 1024 chunks at
    least: adding 20.0 to [float(20 i)] gives [float(20 (i + 1))]. *)
Lemma binary64_offset_exact (i : nat) :
  i < 1024 ->
  add (of_int (20 * Z.of_nat i)) (of_int 20) = of_int (20 * Z.of_nat (S i)).
Proof.
  intros Hi. do 1024 (destruct i as [|i]; [reflexivity|]). lia.
Qed.

(** For up to 1024 chunks of distinct objects nothing is assumed of the
    arithmetic: the segments of chunk [i] are shifted by [float(20 i)]. *)
Lemma normalize_first_chunks (returned : list (list nat))
    (store : gmap nat Segment) (i : nat) (segs : list nat) (r : nat)
    (s : Segment) :
  length returned <= 1024 ->
  NoDup (concat returned) ->
  returned !! i = Some segs -> r ∈ segs -> store !! r = Some s ->
  snd (normalize returned store) !! r
  = Some (shift (of_int (20 * Z.of_nat i)) s).
Proof.
  intros Hlen Hnd Hi Hr Hs.
  destruct (normalize_loop_spec returned [] zero store 0 Hnd eq_refl)
    as (_ & H2 & _).
  - intros j Hj. apply binary64_offset_exact. simpl. lia.
  - exact (H2 i segs r s Hi Hr Hs).
Qed.

(** An object handed back for two chunks is shifted for both: the
    condition that the objects are distinct cannot be dropped. *)
Lemma normalize_same_object (r : nat) (s : Segment)
    (store : gmap nat Segment) :
  store !! r = Some s ->
  snd (normalize [[r]; [r]] store) !! r
  = Some (shift (of_int 20) (shift zero s)).
Proof.
  intros Hs. unfold normalize. simpl.
  now rewrite !lookup_alter_eq, Hs.
Qed.

End Binary64.

(** C3.  In a run where every chunk is transcribed and the segment dicts
    handed back are distinct objects (as those of [transcribe_chunk] are),
    the normalised transcript is the concatenation of the returned lists in
    chunk order, and for every chunk index [i] and every segment
    [{start, end}] of that chunk the loop leaves exactly
    [{start + offset, end + offset}] with [offset = float(i * 20)], that
    is [i * CHUNK_DURATION_SEC], the sums being those of binary64 and the
    other keys unchanged.  This holds for up to 1024 chunks with nothing
    assumed, and for more chunks as long as adding 20.0 to the running
    offset is exact. *)
Theorem normalization_adds_chunk_offset
    (returned : list (list nat)) (store : gmap nat Normalizer.Segment) :
  NoDup (concat returned) ->
  (length returned <= 1024
   \/ forall i, i < length returned ->
        PrimFloat.add (Normalizer.of_int (20 * Z.of_nat i))
          (Normalizer.of_int 20)
        = Normalizer.of_int (20 * Z.of_nat (S i))) ->
  fst (Normalizer.normalize returned store) = concat returned
  /\ forall i segs r s,
       returned !! i = Some segs -> r ∈ segs -> store !! r = Some s ->
       snd (Normalizer.normalize returned store) !! r
       = Some {| Normalizer.seg_id := Normalizer.seg_id s;
                 Normalizer.seg_start :=
                   PrimFloat.add (Normalizer.seg_start s)
                     (Normalizer.of_int (20 * Z.of_nat i));
                 Normalizer.seg_end :=
                   PrimFloat.add (Normalizer.seg_end s)
                     (Normalizer.of_int (20 * Z.of_nat i));
                 Normalizer.seg_text := Normalizer.seg_text s |}.
Proof.
  intros Hnd Hex.
  assert (Hex' : forall i, i < length returned ->
            PrimFloat.add (Normalizer.of_int (20 * Z.of_nat (0 + i)))
              (Normalizer.of_int 20)
            = Normalizer.of_int (20 * Z.of_nat (S (0 + i)))).
  { intros i Hi. destruct Hex as [Hlen|Hex]; [|now apply Hex].
    apply binary64_offset_exact. simpl. lia. }
  destruct (normalize_loop_spec returned [] PrimFloat.zero store 0 Hnd
              eq_refl Hex') as (H1 & H2 & _).
  split; [exact H1|]. intros i segs r s Hi Hr Hs.
  exact (H2 i segs r s Hi Hr Hs).
Qed.

Section Binary64Witness.

Import PrimFloat.

(** Chunk 1 holds [{2.24, 4.5}]: the loop leaves
    [{22.240000000000002, 24.5}], the binary64 sums. *)
Lemma normalization_adds_chunk_offset_witness :
  snd (Normalizer.normalize FloatExamples.returned_two
         FloatExamples.store_two) !! 1
  = Some {| Normalizer.seg_id := 0;
            Normalizer.seg_start := 0x1.63d70a3d70a3ep+4%float;
            Normalizer.seg_end := 0x1.88p+4%float;
            Normalizer.seg_text := Some "world"%string |}.
Proof.
  refine (proj2 (normalization_adds_chunk_offset FloatExamples.returned_two
                   FloatExamples.store_two _ _) 1 [1] 1
            {| Normalizer.seg_id := 0;
               Normalizer.seg_start := 0x1.1eb851eb851ecp+1%float;
               Normalizer.seg_end := 0x1.2p+2%float;
               Normalizer.seg_text := Some "world"%string |} _ _ _).
  - apply (bool_decide_unpack _). vm_compute. exact I.
  - left. simpl. lia.
  - reflexivity.
  - now left.
  - reflexivity.
Defined.

End Binary64Witness.

(** C2, as stated, fails on both pipelines.  With two chunks of which the
    first raises and the second would succeed, [process_meeting_audio]
    returns no result at all: the exception reaches the caller.  On the
    same failure [transcribe_audio] of [server.py] returns a text, which
    holds an error marker besides the successful chunk's text. *)
Lemma chunk_failure_reaches_caller :
  transcriber Examples.world_failing_first 1
    "/tmp/audio_chunks_a/chunk_001.mp3" (Some "audio/wav"%string)
  = Ok [Examples.seg_world]
  /\ process_meeting_audio Examples.world_failing_first
     = Raise (Exception "boom")
  /\ ~ (exists r, process_meeting_audio Examples.world_failing_first = Ok r)
  /\ Server.transcribe_audio Examples.server_world_failing_first
     = Ok "[Error transcribing chunk 1: boom] world"%string.
Proof.
  split; [reflexivity|]. split; [reflexivity|].
  split; [|reflexivity]. intros [r Hr]. discriminate Hr.
Qed.

(** C2, amended.  In [transcribe_audio] of [server.py], once
    [download_audio] has returned, a chunk whose transcription raises an
    exception of class [Exception] does not end the run.  When every chunk
    either returns a text or raises such an exception with message [m],
    every chunk is attempted in order and yields one string: its text and a
    blank, or the marker ["[Error transcribing chunk i: m] "] with its
    1-based index; [transcribe_audio] returns the stripped concatenation
    of these strings. *)
Theorem chunk_failure_yields_marker
    (w : Server.World) (tmp_file content_type : string) :
  Server.download_audio (Server.http_response w) (Server.tmp_path w)
  = Ok (tmp_file, content_type) ->
  (forall j, j < Server.NUM_CHUNKS w ->
     (exists text,
        Server.transcriber w j
          (Server.tmp_dir w ++ "/" ++ chunk_name j)%string
          (Some content_type) = Ok text)
     \/ (exists m,
           Server.transcriber w j
             (Server.tmp_dir w ++ "/" ++ chunk_name j)%string
             (Some content_type) = Raise (Exception m))) ->
  exists yielded,
    Server.transcribe_audio_generator w = Ok yielded
    /\ length yielded = Server.NUM_CHUNKS w
    /\ (forall j text,
          j < Server.NUM_CHUNKS w ->
          Server.transcriber w j
            (Server.tmp_dir w ++ "/" ++ chunk_name j)%string
            (Some content_type) = Ok text ->
          nth_error yielded j = Some (text ++ " ")%string)
    /\ (forall j m,
          j < Server.NUM_CHUNKS w ->
          Server.transcriber w j
            (Server.tmp_dir w ++ "/" ++ chunk_name j)%string
            (Some content_type) = Raise (Exception m) ->
          nth_error yielded j
          = Some ("[Error transcribing chunk " ++ pretty (S j) ++ ": "
                  ++ m ++ "] ")%string)
    /\ Server.transcribe_audio w
       = Ok (strip (fold_left String.app yielded ""%string)).
Proof.
  intros Hd _.
  set (f := fun j => (Server.tmp_dir w ++ "/" ++ chunk_name j)%string).
  set (g := fun j =>
         match Server.transcriber w j (f j) (Some content_type) with
         | Ok text => (text ++ " ")%string
         | Raise e =>
             ("[Error transcribing chunk " ++ pretty (S j) ++ ": "
              ++ exn_str e ++ "] ")%string
         end).
  assert (G : Server.transcribe_audio_generator w
              = Ok (map g (seq 0 (Server.NUM_CHUNKS w)))).
  { unfold Server.transcribe_audio_generator. rewrite Hd. simpl.
    unfold Server.split_audio, split_audio.
    rewrite yield_loop_spec. reflexivity. }
  assert (N : forall j, j < Server.NUM_CHUNKS w ->
            nth_error (map g (seq 0 (Server.NUM_CHUNKS w))) j = Some (g j)).
  { intros j Hj. rewrite nth_error_map, nth_error_seq.
    destruct (Nat.ltb_spec j (Server.NUM_CHUNKS w)); [reflexivity | lia]. }
  exists (map g (seq 0 (Server.NUM_CHUNKS w))).
  split; [exact G|]. split; [now rewrite length_map, length_seq|].
  split; [|split].
  - intros j text Hj Ht. rewrite (N j Hj). unfold g, f. now rewrite Ht.
  - intros j m Hj Hm. rewrite (N j Hj). unfold g, f. now rewrite Hm.
  - unfold Server.transcribe_audio. now rewrite G.
Qed.

Lemma chunk_failure_yields_marker_witness :
  exists yielded,
    Server.transcribe_audio_generator Examples.server_world_failing_first
    = Ok yielded
    /\ length yielded = 2
    /\ (forall j text,
          j < 2 ->
          Examples.text_failing_first j
            ("/tmp/audio_chunks_a" ++ "/" ++ chunk_name j)%string
            (Some "audio/wav"%string) = Ok text ->
          nth_error yielded j = Some (text ++ " ")%string)
    /\ (forall j m,
          j < 2 ->
          Examples.text_failing_first j
            ("/tmp/audio_chunks_a" ++ "/" ++ chunk_name j)%string
            (Some "audio/wav"%string) = Raise (Exception m) ->
          nth_error yielded j
          = Some ("[Error transcribing chunk " ++ pretty (S j) ++ ": "
                  ++ m ++ "] ")%string)
    /\ Server.transcribe_audio Examples.server_world_failing_first
       = Ok (strip (fold_left String.app yielded ""%string)).
Proof.
  refine (chunk_failure_yields_marker Examples.server_world_failing_first
            "/tmp/asr_a.mp3" "audio/wav" _ _).
  - reflexivity.
  - intros [|j] Hj.
    + right. exists "boom"%string. reflexivity.
    + left. exists "world"%string. reflexivity.
Defined.

(** ** The mock transcriber *)

Section MockTranscriber.

Local Open Scope Q_scope.

Lemma draw_ok_rounded (dr : SegmentDraw) :
  draw_ok dr ->
  inject_Z 2 <= round2 (draw_duration dr)
  /\ round2 (draw_duration dr) <= inject_Z 5.
Proof.
  intros [H2 H5]. split; [apply round2_ge_Z | apply round2_le_Z]; assumption.
Qed.


(** Upper bounds: five seconds more per segment. *)
Lemma transcribe_loop_bounds (draws : list SegmentDraw) :
  forall (i : nat) (t : Q) (n : Z),
    Forall draw_ok draws ->
    t <= inject_Z n ->
    Forall (fun s =>
              asr_start s <= inject_Z (n + 5 * Z.of_nat (length draws) - 5)
              /\ asr_end s <= inject_Z (n + 5 * Z.of_nat (length draws)))
           (transcribe_loop draws i t).
Proof.
  induction draws as [|dr rest IH]; intros i t n Hok Ht; simpl transcribe_loop.
  - constructor.
  - apply Forall_cons_1 in Hok as [Hdr Hrest].
    destruct (draw_ok_rounded dr Hdr) as [_ H5].
    pose proof (round2_le_Z t n Ht) as Hs.
    assert (He : round2 (round2 t + round2 (draw_duration dr))
                 <= inject_Z (n + 5)).
    { apply round2_le_Z. rewrite inject_Z_plus. lra. }
    assert (L : (0 <= Z.of_nat (length rest))%Z) by lia.
    constructor.
    + cbn [asr_start asr_end]. rewrite length_cons. split.
      * eapply Qle_trans; [exact Hs|]. rewrite <- Zle_Qle. lia.
      * eapply Qle_trans; [exact He|]. rewrite <- Zle_Qle. lia.
    + specialize (IH (S i) _ (n + 5)%Z Hrest He).
      eapply Forall_impl; [exact IH|]. intros s [A B].
      cbn beta in A, B. rewrite length_cons.
      replace (n + 5 * Z.of_nat (S (length rest)) - 5)%Z
        with (n + 5 + 5 * Z.of_nat (length rest) - 5)%Z by lia.
      replace (n + 5 * Z.of_nat (S (length rest)))%Z
        with (n + 5 + 5 * Z.of_nat (length rest))%Z by lia.
      split; assumption.
Qed.

(** Starts never decrease inside a chunk, and none precedes the rounded
    time at which the loop is entered. *)
Lemma transcribe_loop_sorted (draws : list SegmentDraw) :
  forall (i : nat) (t : Q),
    Forall draw_ok draws ->
    StronglySorted start_le (transcribe_loop draws i t)
    /\ Forall (fun s => round2 t <= asr_start s) (transcribe_loop draws i t).
Proof.
  induction draws as [|dr rest IH]; intros i t Hok; simpl transcribe_loop.
  - split; constructor.
  - apply Forall_cons_1 in Hok as [Hdr Hrest].
    destruct (draw_ok_rounded dr Hdr) as [H2 _].
    set (e := round2 (round2 t + round2 (draw_duration dr))).
    assert (He : round2 t <= e).
    { rewrite <- (round2_idem t) at 1. apply round2_mono.
      change (inject_Z 2) with 2 in H2. lra. }
    destruct (IH (S i) e Hrest) as [Hs Hlo].
    assert (Hlo' : Forall (fun s => round2 t <= asr_start s)
                     (transcribe_loop rest (S i) e)).
    { eapply Forall_impl; [exact Hlo|]. intros s Hs'. simpl in Hs'.
      unfold e in Hs' at 1. rewrite round2_idem in Hs'. fold e in Hs'.
      eapply Qle_trans; eassumption. }
    split.
    + constructor; [exact Hs|]. exact Hlo'.
    + constructor; [simpl; apply Qle_refl | exact Hlo'].
Qed.

(** The local segments of a chunk: sorted by start, every start within
    [0, 20], every end at most 25. *)
Lemma transcribe_chunk_window (draws : list SegmentDraw) :
  draws_ok draws ->
  StronglySorted start_le (transcribe_chunk draws)
  /\ Forall (fun s => 0 <= asr_start s /\ asr_start s <= 20
                      /\ asr_end s <= 25)
       (transcribe_chunk draws).
Proof.
  intros [[Hlen2 Hlen5] Hok]. unfold transcribe_chunk.
  destruct (transcribe_loop_sorted draws 0 0 Hok) as [Hs Hlo].
  split; [exact Hs|].
  pose proof (transcribe_loop_bounds draws 0 0 0 Hok (Qle_refl _)) as Hb.
  apply List.Forall_forall. intros s Hin.
  rewrite List.Forall_forall in Hlo, Hb.
  specialize (Hlo s Hin). destruct (Hb s Hin) as [A B].
  change (round2 0) with 0 in Hlo.
  split; [exact Hlo|]. split.
  - eapply Qle_trans; [exact A|]. change 20 with (inject_Z 20).
    rewrite <- Zle_Qle. lia.
  - eapply Qle_trans; [exact B|]. change 25 with (inject_Z 25).
    rewrite <- Zle_Qle. lia.
Qed.

End MockTranscriber.



(** ** Order of the normalised transcript *)

Section GlobalOrder.

Local Open Scope Q_scope.

Lemma chunk_offset_next (i : nat) : chunk_offset (S i) = chunk_offset i + 20.
Proof. symmetry. apply chunk_offset_S. Qed.

Lemma shift_window (i : nat) (l : list AsrSegment) :
  StronglySorted start_le l ->
  Forall (fun s => 0 <= asr_start s /\ asr_start s <= 20) l ->
  StronglySorted start_le (map (shift (chunk_offset i)) l)
  /\ Forall (fun s => chunk_offset i <= asr_start s
                      /\ asr_start s <= chunk_offset (S i))
       (map (shift (chunk_offset i)) l).
Proof.
  rewrite chunk_offset_next. generalize (chunk_offset i). intros q.
  induction 1 as [|s l Hs IH Hhd]; intros Hw; simpl.
  - split; constructor.
  - apply Forall_cons_1 in Hw as [[H0 H20] Hw].
    destruct (IH Hw) as [IH1 IH2]. split.
    + constructor; [exact IH1|].
      apply List.Forall_forall. intros x Hx.
      apply in_map_iff in Hx as (y & <- & Hy).
      rewrite List.Forall_forall in Hhd. specialize (Hhd y Hy).
      unfold start_le in *. simpl. lra.
    + constructor; [simpl; lra | exact IH2].
Qed.

(** Chunks whose starts stay inside their own window, laid end to end. *)
Lemma flat_map_seq_sorted (g : nat -> list AsrSegment) (n : nat) :
  forall a : nat,
    (forall i, (a <= i < a + n)%nat ->
       StronglySorted start_le (g i)
       /\ Forall (fun s => chunk_offset i <= asr_start s
                           /\ asr_start s <= chunk_offset (S i)) (g i)) ->
    StronglySorted start_le (flat_map g (seq a n))
    /\ Forall (fun s => chunk_offset a <= asr_start s) (flat_map g (seq a n)).
Proof.
  induction n as [|n IH]; intros a H; simpl.
  - split; constructor.
  - destruct (H a ltac:(lia)) as [Ha Hwa].
    destruct (IH (S a)) as [Hs Hlo]; [intros i Hi; apply H; lia|].
    rewrite Forall_forall in Hwa, Hlo. split.
    + apply StronglySorted_app_2; [|exact Ha|exact Hs].
      intros x1 x2 H1 H2. destruct (Hwa x1 H1) as [_ U].
      specialize (Hlo x2 H2). cbn beta in Hlo. unfold start_le. lra.
    + apply Forall_app. split; rewrite Forall_forall.
      * intros x Hx. apply (Hwa x Hx).
      * intros x Hx. specialize (Hlo x Hx). cbn beta in Hlo.
        rewrite chunk_offset_next in Hlo. unfold chunk_offset in *.
        assert (0 <= inject_Z (20 * Z.of_nat a))
          by (change 0 with (inject_Z 0); rewrite <- Zle_Qle; lia).
        lra.
Qed.

Lemma keyed_chunk_sorted (i : nat) (l : list AsrSegment) :
  StronglySorted start_le l ->
  StronglySorted key_le (map (pair i) l).
Proof.
  induction 1 as [|s l Hs IH Hhd]; simpl; constructor; [exact IH|].
  apply List.Forall_forall. intros x Hx.
  apply in_map_iff in Hx as (y & <- & Hy).
  rewrite List.Forall_forall in Hhd. right. split; [reflexivity|].
  apply (Hhd y Hy).
Qed.

Lemma keyed_seq_sorted (c : nat -> list AsrSegment) (n : nat) :
  forall a : nat,
    (forall i, (a <= i < a + n)%nat -> StronglySorted start_le (c i)) ->
    StronglySorted key_le
      (flat_map (fun i => map (pair i) (c i)) (seq a n))
    /\ Forall (fun p => (a <= fst p)%nat)
         (flat_map (fun i => map (pair i) (c i)) (seq a n)).
Proof.
  induction n as [|n IH]; intros a H; simpl.
  - split; constructor.
  - destruct (IH (S a)) as [Hs Hlo]; [intros i Hi; apply H; lia|].
    assert (Hfst : Forall (fun p : nat * AsrSegment => fst p = a)
                     (map (pair a) (c a))).
    { apply List.Forall_forall. intros x Hx.
      apply in_map_iff in Hx as (y & <- & _). reflexivity. }
    rewrite Forall_forall in Hfst, Hlo. split.
    + apply StronglySorted_app_2; [| |exact Hs].
      * intros x1 x2 H1 H2. left.
        rewrite (Hfst x1 H1). specialize (Hlo x2 H2). cbn beta in Hlo. lia.
      * apply keyed_chunk_sorted, H. lia.
    + apply Forall_app. split; rewrite Forall_forall.
      * intros x Hx. rewrite (Hfst x Hx). lia.
      * intros x Hx. specialize (Hlo x Hx). cbn beta in Hlo. lia.
Qed.

End GlobalOrder.

(** C4.  With the mock transcriber, whatever its draws, the normalised
    transcript is the concatenation, in chunk-index order, of the chunks'
    segment lists, each in the order returned and shifted by its chunk's
    offset, with no sorting step; and this list is ordered by (chunk index,
    local start) and its global start times never decrease. *)
Theorem normalized_sequence_time_ordered
    (draws : nat -> list SegmentDraw) (ct : option string) (dir : string)
    (n : nat) :
  (forall i, i < n -> draws_ok (draws i)) ->
  let chunk := fun i => transcribe_chunk (draws i) in
  let normalized :=
    flat_map (fun i => map (shift (chunk_offset i)) (chunk i)) (seq 0 n) in
  chunks_loop (mock_transcriber draws) ct (split_audio dir n) 0 [] 0%Q
  = Ok normalized
  /\ StronglySorted key_le
       (flat_map (fun i => map (pair i) (chunk i)) (seq 0 n))
  /\ StronglySorted start_le normalized.
Proof.
  intros H chunk normalized. split; [|split].
  - unfold split_audio. rewrite <- chunk_offset_0.
    rewrite (chunks_loop_ok _ ct _ chunk n 0 []); [reflexivity|].
    intros j Hj. reflexivity.
  - apply keyed_seq_sorted. intros i Hi.
    apply transcribe_chunk_window, H. lia.
  - apply flat_map_seq_sorted. intros i Hi.
    destruct (transcribe_chunk_window (draws i)) as [Hs Hw]; [apply H; lia|].
    apply shift_window; [exact Hs|].
    eapply Forall_impl; [exact Hw|]. intros s (A & B & _). now split.
Qed.

Lemma normalized_sequence_time_ordered_witness :
  StronglySorted start_le
    (flat_map
       (fun i => map (shift (chunk_offset i))
                   (transcribe_chunk (Examples.draws_two_chunks i)))
       (seq 0 2)).
Proof.
  refine (proj2 (proj2 (normalized_sequence_time_ordered
                          Examples.draws_two_chunks None
                          "/tmp/audio_chunks_a" 2 _))).
  intros [|[|i]] Hi.
  - split; [simpl; lia|]. repeat constructor; unfold Qle; simpl; lia.
  - split; [simpl; lia|]. repeat constructor; unfold Qle; simpl; lia.
  - lia.
Defined.


(** * Further properties *)

(** ** Strings *)

Section Strings.

Local Open Scope string_scope.

Lemma string_app_cons (c : ascii) (s t : string) :
  String c s ++ t = String c (s ++ t).
Proof. reflexivity. Qed.

Lemma string_app_nil_r (s : string) : s ++ "" = s.
Proof.
  induction s as [|c s IH]; [reflexivity|].
  now rewrite string_app_cons, IH.
Qed.

Lemma string_app_assoc (s1 s2 s3 : string) :
  (s1 ++ s2) ++ s3 = s1 ++ (s2 ++ s3).
Proof.
  induction s1 as [|c s1 IH]; [reflexivity|].
  now rewrite !string_app_cons, IH.
Qed.

Lemma string_rev_app_acc (s acc : string) :
  String.rev_app s acc = String.rev_app s "" ++ acc.
Proof.
  revert acc. induction s as [|c s IH]; intros acc; [reflexivity|].
  change (String.rev_app s (String c acc)
          = String.rev_app s (String c "") ++ acc).
  rewrite (IH (String c acc)), (IH (String c "")).
  now rewrite string_app_assoc.
Qed.

Lemma string_rev_cons (c : ascii) (s : string) :
  String.rev (String c s) = String.rev s ++ String c "".
Proof. unfold String.rev. apply (string_rev_app_acc s (String c "")). Qed.

Lemma string_rev_app (s1 s2 : string) :
  String.rev (s1 ++ s2) = String.rev s2 ++ String.rev s1.
Proof.
  induction s1 as [|c s1 IH].
  - change (String.rev s2 = String.rev s2 ++ ""). now rewrite string_app_nil_r.
  - now rewrite string_app_cons, !string_rev_cons, IH, string_app_assoc.
Qed.

Lemma string_rev_involutive (s : string) : String.rev (String.rev s) = s.
Proof.
  induction s as [|c s IH]; [reflexivity|].
  now rewrite string_rev_cons, string_rev_app, IH.
Qed.

Lemma string_rev_length (s : string) :
  String.length (String.rev s) = String.length s.
Proof.
  induction s as [|c s IH]; [reflexivity|].
  rewrite string_rev_cons, string_length_app, IH. simpl. lia.
Qed.

Lemma lstrip_head_ok (s : string) : head_ok (lstrip s).
Proof.
  induction s as [|c s IH]; simpl; [exact I|].
  destruct (isspace c) eqn:E; [exact IH | exact E].
Qed.

Lemma lstrip_length (s : string) :
  String.length (lstrip s) <= String.length s.
Proof.
  induction s as [|c s IH]; simpl; [lia|].
  destruct (isspace c); simpl; lia.
Qed.

Lemma lstrip_snoc (s : string) (c : ascii) :
  isspace c = false -> lstrip (s ++ String c "") = lstrip s ++ String c "".
Proof.
  intros Hc. induction s as [|b s IH].
  - simpl. now rewrite Hc.
  - rewrite string_app_cons. simpl.
    destruct (isspace b); [exact IH | reflexivity].
Qed.

Lemma strip_length (s : string) : String.length (strip s) <= String.length s.
Proof.
  unfold strip, rstrip. rewrite string_rev_length.
  pose proof (lstrip_length (String.rev (lstrip s))) as H.
  rewrite string_rev_length in H. pose proof (lstrip_length s). lia.
Qed.

(** What [strip] returns has no blank at either end. *)
Lemma strip_stripped (s : string) : stripped (strip s).
Proof.
  unfold stripped, strip, rstrip. split.
  - pose proof (lstrip_head_ok s) as H.
    destruct (lstrip s) as [|c t]; [exact I|]. simpl in H.
    rewrite string_rev_cons, (lstrip_snoc _ _ H), string_rev_app. exact H.
  - rewrite string_rev_involutive. apply lstrip_head_ok.
Qed.

Lemma str_take_length (n : nat) (s : string) :
  n <= String.length s -> String.length (str_take n s) = n.
Proof.
  revert s. induction n as [|n IH]; intros s H; [reflexivity|].
  destruct s as [|c s]; simpl in *; [lia|]. rewrite IH; lia.
Qed.

End Strings.

(** ** More on the aligner *)

Section AlignerMore.

Lemma touches_some_true (ds : list DiarSegment) (a : AsrSegment) :
  touches_some ds a = true <-> exists d, In d ds /\ touches a d.
Proof.
  unfold touches_some. rewrite existsb_exists.
  split; intros (d & Hd & H); exists d; (split; [exact Hd|]);
    now apply overlap_touches.
Qed.

Lemma touches_some_false (ds : list DiarSegment) (a : AsrSegment) :
  touches_some ds a = false <-> forall d, In d ds -> ~ touches a d.
Proof.
  split.
  - intros H d Hd Ht.
    assert (E : touches_some ds a = true) by (apply touches_some_true; eauto).
    congruence.
  - intros H. destruct (touches_some ds a) eqn:E; [|reflexivity].
    apply touches_some_true in E as (d & Hd & Ht). destruct (H d Hd Ht).
Qed.

(** The turn for [a] appends one segment when [a] touches a turn, none
    otherwise. *)
Lemma align_one_cases (a : AsrSegment) (ds : list DiarSegment) :
  if touches_some ds a
  then exists d, In d ds /\ touches a d /\ align_one a ds = [aligned a d]
  else align_one a ds = [].
Proof.
  induction ds as [|d ds IH]; simpl; [reflexivity|].
  unfold touches_some in *. simpl. destruct (overlap a d) eqn:E; simpl.
  - exists d. split; [now left|]. split; [now apply overlap_touches|reflexivity].
  - destruct (existsb (overlap a) ds); [|exact IH].
    destruct IH as (d' & Hd' & Ht & Hal). exists d'. split; [now right|].
    now split.
Qed.

Lemma align_one_extend (a : AsrSegment) (ds extra : list DiarSegment) :
  sublist (align_one a ds) (align_one a (ds ++ extra)).
Proof.
  induction ds as [|d ds IH]; simpl; [apply sublist_nil_l|].
  destruct (overlap a d); [reflexivity | exact IH].
Qed.

End AlignerMore.

(** X1.  The aligner returns one segment for each transcript segment that
    touches some speaker turn, in the order of the transcript, and none for
    the others: the bounds and texts of the aligned list are those of the
    touching transcript segments, rounded and stripped; in particular the
    aligned list is never longer than the transcript. *)
Theorem align_one_per_touching_segment
    (asr : list AsrSegment) (ds : list DiarSegment) :
  map (fun r => (start r, end_ r, text r)) (align_asr_with_diarization asr ds)
  = map (fun a => (round2 (asr_start a), round2 (asr_end a),
                   strip (default ""%string (asr_text a))))
      (List.filter (touches_some ds) asr)
  /\ length (align_asr_with_diarization asr ds)
     = length (List.filter (touches_some ds) asr)
  /\ length (align_asr_with_diarization asr ds) <= length asr.
Proof.
  assert (E : map (fun r => (start r, end_ r, text r))
                (align_asr_with_diarization asr ds)
              = map (fun a => (round2 (asr_start a), round2 (asr_end a),
                               strip (default ""%string (asr_text a))))
                  (List.filter (touches_some ds) asr)).
  { induction asr as [|a asr IH]; [reflexivity|].
    rewrite align_cons, map_app, IH. simpl List.filter.
    pose proof (align_one_cases a ds) as H.
    destruct (touches_some ds a).
    - destruct H as (d & _ & _ & ->). reflexivity.
    - rewrite H. reflexivity. }
  split; [exact E|].
  assert (L : length (align_asr_with_diarization asr ds)
              = length (List.filter (touches_some ds) asr)).
  { apply (f_equal (@length _)) in E. now rewrite !length_map in E. }
  split; [exact L|]. rewrite L. apply List.filter_length_le.
Qed.

(** X2.  Turns appended to the diarization never change what was aligned:
    the list aligned against [ds] is a sub-list, segment for segment with
    its speaker, of the list aligned against [ds ++ extra]. *)
Theorem align_extend_turns
    (asr : list AsrSegment) (ds extra : list DiarSegment) :
  sublist (align_asr_with_diarization asr ds)
          (align_asr_with_diarization asr (ds ++ extra)).
Proof.
  induction asr as [|a asr IH]; [constructor|].
  rewrite !align_cons. apply sublist_app; [apply align_one_extend | exact IH].
Qed.

(** X3.  When no transcript segment touches any speaker turn (in
    particular with no transcript or no turn at all) the response is the
    empty transcript: no speaker, no segment, an empty text and a duration
    of 0. *)
Theorem no_overlap_empty_transcript
    (asr : list AsrSegment) (ds : list DiarSegment) (id : string) :
  (forall a d, In a asr -> In d ds -> ~ touches a d) ->
  response id (align_asr_with_diarization asr ds)
  = {| meeting_id := id; speakers := []; segments := [];
       full_transcript := ""; duration := 0 |}.
Proof.
  intros H.
  assert (E : align_asr_with_diarization asr ds = []).
  { induction asr as [|a asr IH]; [reflexivity|].
    rewrite align_cons, align_one_none.
    - apply IH. intros a' d Ha'. apply H. now right.
    - intros d Hd. apply H; [now left | exact Hd]. }
  rewrite E. unfold response, speakers_of. simpl map.
  rewrite list_to_set_nil, elements_empty. reflexivity.
Qed.

Lemma no_overlap_empty_transcript_witness :
  response "m" (align_asr_with_diarization [Examples.seg_6_8]
                  [Examples.turn_0_5; Examples.turn_12_20])
  = {| meeting_id := "m"; speakers := []; segments := [];
       full_transcript := ""; duration := 0 |}.
Proof.
  refine (no_overlap_empty_transcript [Examples.seg_6_8]
            [Examples.turn_0_5; Examples.turn_12_20] "m" _).
  intros a d [<-|[]] [<-|[<-|[]]] [H1 H2].
  - unfold Qle in H1; simpl in H1. lia.
  - unfold Qge, Qle in H2; simpl in H2. lia.
Defined.

(** X4.  Every speaker listed in the response is the speaker of a turn of
    the diarization. *)
Theorem speakers_from_diarization
    (asr : list AsrSegment) (ds : list DiarSegment) (id x : string) :
  In x (speakers (response id (align_asr_with_diarization asr ds))) ->
  exists d, In d ds /\ diar_speaker d = x.
Proof.
  simpl. unfold speakers_of.
  rewrite <- list_elem_of_In, merge_sort_Permutation, elem_of_elements,
    elem_of_list_to_set, list_elem_of_In, in_map_iff.
  intros (r & <- & Hr). rewrite align_flat_map, in_flat_map in Hr.
  destruct Hr as (a & _ & Hr).
  destruct (align_one_inv a ds r Hr) as (d & Hd & _ & ->).
  exists d. split; [exact Hd | reflexivity].
Qed.

Lemma speakers_from_diarization_witness :
  exists d, In d [Examples.turn_0_5; Examples.turn_12_20]
            /\ diar_speaker d = "spk_2"%string.
Proof.
  refine (speakers_from_diarization [Examples.seg_10_12]
            [Examples.turn_0_5; Examples.turn_12_20] "m" "spk_2" _).
  vm_compute. left. reflexivity.
Defined.

(** X5.  The text of every aligned segment has no blank at either end. *)
Theorem aligned_text_stripped
    (asr : list AsrSegment) (ds : list DiarSegment) (r : AlignedSegment) :
  In r (align_asr_with_diarization asr ds) -> stripped (text r).
Proof.
  rewrite align_flat_map, in_flat_map. intros (a & _ & Hr).
  destruct (align_one_inv a ds r Hr) as (d & _ & _ & ->).
  simpl. apply strip_stripped.
Qed.

Lemma aligned_text_stripped_witness : stripped "hello".
Proof.
  refine (aligned_text_stripped [Examples.seg_10_12] [Examples.turn_12_20]
            {| speaker := "spk_2"; start := 10; end_ := 12; text := "hello" |}
            _).
  left. reflexivity.
Defined.

Lemma align_start_sorted (asr : list AsrSegment) (ds : list DiarSegment) :
  StronglySorted start_le asr ->
  StronglySorted aligned_start_le (align_asr_with_diarization asr ds).
Proof.
  induction 1 as [|a asr Hs IH Hhd]; [constructor|].
  rewrite align_cons. apply StronglySorted_app_2; [| |exact IH].
  - intros r1 r2 H1 H2. apply list_elem_of_In in H1, H2.
    destruct (align_one_inv a ds r1 H1) as (d1 & _ & _ & ->).
    rewrite align_flat_map, in_flat_map in H2. destruct H2 as (b & Hb & H2).
    destruct (align_one_inv b ds r2 H2) as (d2 & _ & _ & ->).
    unfold aligned_start_le. simpl. apply round2_mono.
    rewrite List.Forall_forall in Hhd. apply (Hhd b Hb).
  - pose proof (align_one_cases a ds) as H.
    destruct (touches_some ds a).
    + destruct H as (d & _ & _ & ->). repeat constructor.
    + rewrite H. constructor.
Qed.

(** X6.  The aligner keeps the order of start times: a transcript sorted by
    start gives an aligned list sorted by start. *)
Theorem align_preserves_start_order
    (asr : list AsrSegment) (ds : list DiarSegment) :
  StronglySorted start_le asr ->
  StronglySorted aligned_start_le (align_asr_with_diarization asr ds).
Proof. apply align_start_sorted. Qed.

Lemma align_preserves_start_order_witness :
  StronglySorted aligned_start_le
    (align_asr_with_diarization [Examples.seg_6_8; Examples.seg_10_12]
       [Examples.turn_12_20]).
Proof.
  refine (align_preserves_start_order [Examples.seg_6_8; Examples.seg_10_12]
            [Examples.turn_12_20] _).
  repeat constructor. unfold start_le, Qle; simpl. lia.
Defined.

(** ** More on the response *)

Lemma speakers_of_members (l : list AlignedSegment) (x : string) :
  In x (speakers_of l) <-> In x (map speaker l).
Proof.
  unfold speakers_of.
  now rewrite <- !list_elem_of_In, merge_sort_Permutation, elem_of_elements,
    elem_of_list_to_set.
Qed.

Lemma speakers_of_NoDup (l : list AlignedSegment) : NoDup (speakers_of l).
Proof.
  unfold speakers_of. rewrite merge_sort_Permutation. apply NoDup_elements.
Qed.

(** X7.  The response lists no more speakers than it has segments, and it
    lists none exactly when it has no segment. *)
Theorem speakers_bounded_by_segments (id : string) (l : list AlignedSegment) :
  length (speakers (response id l)) <= length (segments (response id l))
  /\ (speakers (response id l) = [] <-> segments (response id l) = []).
Proof.
  simpl. split.
  - rewrite <- (length_map speaker l).
    apply List.NoDup_incl_length; [apply NoDup_ListNoDup, speakers_of_NoDup|].
    intros x Hx. now apply speakers_of_members.
  - split.
    + intros E. destruct l as [|r l]; [reflexivity|].
      assert (H : In (speaker r) (speakers_of (r :: l)))
        by (apply speakers_of_members; now left).
      rewrite E in H. destruct H.
    + intros ->. unfold speakers_of. simpl map.
      rewrite list_to_set_nil, elements_empty. reflexivity.
Qed.

(** ** Outcomes of the two pipelines *)

Section Outcomes.

Lemma raise_for_status_ok (resp : HttpResponse) :
  200 <= resp_status resp <= 299 -> raise_for_status resp = Ok tt.
Proof.
  intros H. unfold raise_for_status.
  replace ((200 <=? resp_status resp) && (resp_status resp <=? 299)) with true;
    [reflexivity|].
  symmetry. apply andb_true_iff. split; apply Nat.leb_le; lia.
Qed.

Lemma raise_for_status_error (resp : HttpResponse) :
  ~ (200 <= resp_status resp <= 299) ->
  raise_for_status resp = Raise (HTTPStatusError (resp_status resp)).
Proof.
  intros H. unfold raise_for_status.
  destruct ((200 <=? resp_status resp) && (resp_status resp <=? 299)) eqn:E;
    [|reflexivity].
  apply andb_true_iff in E as [E1 E2]. apply Nat.leb_le in E1, E2. lia.
Qed.

Lemma raise_for_status_dec (resp : HttpResponse) :
  {200 <= resp_status resp <= 299} + {~ (200 <= resp_status resp <= 299)}.
Proof.
  destruct (le_dec 200 (resp_status resp));
    destruct (le_dec (resp_status resp) 299); (left; lia) || (right; lia).
Qed.

(** The loop raises what the first failing chunk raises. *)
Lemma chunks_loop_raise (tr : Transcriber) (ct : option string)
    (f : nat -> string) (segs : nat -> list AsrSegment) (e : exn) (n : nat) :
  forall (k i : nat) (acc : list AsrSegment) (offset : Q),
    k < n ->
    (forall j, i <= j < i + k -> tr j (f j) ct = Ok (segs j)) ->
    tr (i + k) (f (i + k)) ct = Raise e ->
    chunks_loop tr ct (map f (seq i n)) i acc offset = Raise e.
Proof.
  induction n as [|n IH]; intros k i acc offset Hk Hok He; [lia|].
  simpl. destruct k as [|k].
  - rewrite Nat.add_0_r in He. rewrite He. reflexivity.
  - rewrite (Hok i) by lia. simpl. apply (IH k); [lia| |].
    + intros j Hj. apply Hok. lia.
    + replace (S i + k) with (i + S k) by lia. exact He.
Qed.

(** When the loop returns, every chunk was transcribed. *)
Lemma chunks_loop_inv (tr : Transcriber) (ct : option string)
    (f : nat -> string) (n : nat) :
  forall (i : nat) (acc : list AsrSegment) (offset : Q)
         (all : list AsrSegment),
    chunks_loop tr ct (map f (seq i n)) i acc offset = Ok all ->
    forall j, i <= j < i + n -> exists s, tr j (f j) ct = Ok s.
Proof.
  induction n as [|n IH]; intros i acc offset all H j Hj; [lia|].
  simpl in H. destruct (tr i (f i) ct) as [s|e] eqn:E; [|discriminate H].
  simpl in H. destruct (Nat.eq_dec j i) as [->|Hne]; [eauto|].
  apply (IH _ _ _ _ H). lia.
Qed.

(** The normalised transcript in closed form. *)
Lemma chunks_loop_all (tr : Transcriber) (ct : option string) (dir : string)
    (n : nat) (segs : nat -> list AsrSegment) :
  (forall i, i < n ->
     tr i (dir ++ "/" ++ chunk_name i)%string ct = Ok (segs i)) ->
  chunks_loop tr ct (split_audio dir n) 0 [] 0%Q
  = Ok (flat_map (fun i => map (shift (chunk_offset i)) (segs i)) (seq 0 n)).
Proof.
  intros H. unfold split_audio. rewrite <- chunk_offset_0.
  rewrite (chunks_loop_ok tr ct _ segs n 0 []); [reflexivity|].
  intros j Hj. apply H. lia.
Qed.

(** What [process_meeting_audio] does once the download has succeeded. *)
Lemma process_after_download (w : World) :
  200 <= resp_status (http_response w) <= 299 ->
  process_meeting_audio w
  = let ct := headers_get (resp_headers (http_response w)) "Content-Type" in
    let* all := chunks_loop (transcriber w) ct
                  (split_audio (tmp_dir w) (NUM_CHUNKS w)) 0 [] 0%Q in
    let* ds := diarizer w (tmp_path w) in
    Ok (response (uuid w) (align_asr_with_diarization all ds)).
Proof.
  intros H. unfold process_meeting_audio, download_audio.
  rewrite (raise_for_status_ok _ H). reflexivity.
Qed.

(** A successful run, taken apart. *)
Lemma process_ok_inv (w : World) (r : MeetingTranscript) :
  process_meeting_audio w = Ok r ->
  let ct := headers_get (resp_headers (http_response w)) "Content-Type" in
  200 <= resp_status (http_response w) <= 299
  /\ exists segs ds,
       (forall i, i < NUM_CHUNKS w ->
          transcriber w i (tmp_dir w ++ "/" ++ chunk_name i)%string ct
          = Ok (segs i))
       /\ diarizer w (tmp_path w) = Ok ds
       /\ r = response (uuid w)
                (align_asr_with_diarization
                   (flat_map (fun i => map (shift (chunk_offset i)) (segs i))
                      (seq 0 (NUM_CHUNKS w))) ds).
Proof.
  intros H ct.
  destruct (raise_for_status_dec (http_response w)) as [Hs|Hs].
  2:{ unfold process_meeting_audio, download_audio in H.
      rewrite (raise_for_status_error _ Hs) in H. discriminate H. }
  split; [exact Hs|]. rewrite (process_after_download w Hs) in H.
  cbv zeta in H. fold ct in H.
  destruct (chunks_loop (transcriber w) ct
              (split_audio (tmp_dir w) (NUM_CHUNKS w)) 0 [] 0%Q)
    as [all|e] eqn:E; [|discriminate H].
  simpl in H. destruct (diarizer w (tmp_path w)) as [ds|e] eqn:D;
    [|discriminate H].
  simpl in H. injection H as <-.
  set (segs := fun i =>
         match transcriber w i (tmp_dir w ++ "/" ++ chunk_name i)%string ct with
         | Ok s => s
         | Raise _ => []
         end).
  assert (Hsegs : forall i, i < NUM_CHUNKS w ->
            transcriber w i (tmp_dir w ++ "/" ++ chunk_name i)%string ct
            = Ok (segs i)).
  { intros i Hi. unfold split_audio in E.
    destruct (chunks_loop_inv _ _ _ _ _ _ _ _ E i) as [s Hsi]; [lia|].
    unfold segs. now rewrite Hsi. }
  exists segs, ds. split; [exact Hsegs|]. split; [reflexivity|].
  rewrite (chunks_loop_all _ ct _ _ segs Hsegs) in E. now injection E as <-.
Qed.

End Outcomes.

(** X8.  [process_meeting_audio] returns a transcript only if the
    download answered with a 2xx status, the transcription of every chunk
    returned and the diarization returned: each of these is necessary. *)
Theorem process_meeting_audio_returns_only_if
    (w : World) (r : MeetingTranscript) :
  process_meeting_audio w = Ok r ->
  200 <= resp_status (http_response w) <= 299
  /\ (forall i, i < NUM_CHUNKS w ->
        exists segs,
          transcriber w i (tmp_dir w ++ "/" ++ chunk_name i)%string
            (headers_get (resp_headers (http_response w)) "Content-Type")
          = Ok segs)
  /\ exists ds, diarizer w (tmp_path w) = Ok ds.
Proof.
  intros H. destruct (process_ok_inv w r H) as (Hs & segs & ds & Hsegs & Hd & _).
  split; [exact Hs|]. split; [|eauto].
  intros i Hi. exists (segs i). now apply Hsegs.
Qed.

Lemma process_meeting_audio_returns_only_if_witness :
  200 <= resp_status (http_response MoreExamples.world_ok) <= 299
  /\ (forall i, i < NUM_CHUNKS MoreExamples.world_ok ->
        exists segs,
          transcriber MoreExamples.world_ok i
            (tmp_dir MoreExamples.world_ok ++ "/" ++ chunk_name i)%string
            (headers_get
               (resp_headers (http_response MoreExamples.world_ok))
               "Content-Type")
          = Ok segs)
  /\ exists ds,
       diarizer MoreExamples.world_ok (tmp_path MoreExamples.world_ok)
       = Ok ds.
Proof.
  refine (process_meeting_audio_returns_only_if MoreExamples.world_ok _ _).
  vm_compute. reflexivity.
Defined.

(** X9.  With a 2xx download, if chunk [k] is the first whose transcription
    raises, [process_meeting_audio] raises that very exception, whatever
    the later chunks and the diarization would have returned. *)
Theorem first_failing_chunk_raises
    (w : World) (segs : nat -> list AsrSegment) (k : nat) (e : exn) :
  200 <= resp_status (http_response w) <= 299 ->
  k < NUM_CHUNKS w ->
  (forall j, j < k ->
     transcriber w j (tmp_dir w ++ "/" ++ chunk_name j)%string
       (headers_get (resp_headers (http_response w)) "Content-Type")
     = Ok (segs j)) ->
  transcriber w k (tmp_dir w ++ "/" ++ chunk_name k)%string
    (headers_get (resp_headers (http_response w)) "Content-Type")
  = Raise e ->
  process_meeting_audio w = Raise e.
Proof.
  intros Hs Hk Hok He. rewrite (process_after_download w Hs). cbv zeta.
  unfold split_audio.
  rewrite (chunks_loop_raise _ _ _ segs e (NUM_CHUNKS w) k 0 [] 0%Q Hk);
    [reflexivity| |exact He].
  intros j Hj. apply Hok. lia.
Qed.

Lemma first_failing_chunk_raises_witness :
  process_meeting_audio MoreExamples.world_failing_second
  = Raise (Exception "boom").
Proof.
  refine (first_failing_chunk_raises MoreExamples.world_failing_second
            (fun _ => [MoreExamples.seg_0_5]) 1 (Exception "boom") _ _ _ _).
  - simpl. lia.
  - simpl. lia.
  - intros [|j] Hj; [reflexivity | lia].
  - reflexivity.
Defined.

(** X10.  When the download answers with a status outside 200..299,
    [process_meeting_audio] raises [HTTPStatusError] for that status; no
    chunk is transcribed and no diarization is asked for. *)
Theorem download_failure_raises (w : World) :
  ~ (200 <= resp_status (http_response w) <= 299) ->
  process_meeting_audio w
  = Raise (HTTPStatusError (resp_status (http_response w))).
Proof.
  intros H. unfold process_meeting_audio, download_audio.
  rewrite (raise_for_status_error _ H). reflexivity.
Qed.

Lemma download_failure_raises_witness :
  process_meeting_audio MoreExamples.world_404 = Raise (HTTPStatusError 404).
Proof.
  refine (download_failure_raises MoreExamples.world_404 _).
  simpl. lia.
Defined.

(** X11.  With a 2xx download and every chunk transcribed, an exception of
    the diarization is raised by [process_meeting_audio]: no partial
    transcript is returned. *)
Theorem diarization_failure_raises
    (w : World) (segs : nat -> list AsrSegment) (e : exn) :
  200 <= resp_status (http_response w) <= 299 ->
  (forall i, i < NUM_CHUNKS w ->
     transcriber w i (tmp_dir w ++ "/" ++ chunk_name i)%string
       (headers_get (resp_headers (http_response w)) "Content-Type")
     = Ok (segs i)) ->
  diarizer w (tmp_path w) = Raise e ->
  process_meeting_audio w = Raise e.
Proof.
  intros Hs Hsegs Hd. rewrite (process_after_download w Hs). cbv zeta.
  rewrite (chunks_loop_all _ _ _ _ segs Hsegs). simpl. now rewrite Hd.
Qed.

Lemma diarization_failure_raises_witness :
  process_meeting_audio MoreExamples.world_no_diarization
  = Raise (Exception "diarizer down").
Proof.
  refine (diarization_failure_raises MoreExamples.world_no_diarization
            (fun i => match i with
                      | O => [MoreExamples.seg_0_5]
                      | S _ => [Examples.seg_world]
                      end)
            (Exception "diarizer down") _ _ _).
  - simpl. lia.
  - intros [|i] Hi; reflexivity.
  - reflexivity.
Defined.

(** X12.  When the download answers with a status outside 200..299,
    [transcribe_audio] of [server.py] raises [HTTPStatusError] for that
    status, whatever the transcriber would do. *)
Theorem server_download_failure_raises (w : Server.World) :
  ~ (200 <= resp_status (Server.http_response w) <= 299) ->
  Server.transcribe_audio w
  = Raise (HTTPStatusError (resp_status (Server.http_response w))).
Proof.
  intros H.
  unfold Server.transcribe_audio, Server.transcribe_audio_generator,
    Server.download_audio.
  rewrite (raise_for_status_error _ H). reflexivity.
Qed.

Lemma server_download_failure_raises_witness :
  Server.transcribe_audio MoreExamples.server_world_404
  = Raise (HTTPStatusError 404).
Proof.
  refine (server_download_failure_raises MoreExamples.server_world_404 _).
  simpl. lia.
Defined.

(** ** The two mocks *)

Section Mocks.

Local Open Scope Q_scope.

Lemma transcribe_loop_length (draws : list SegmentDraw) (i : nat) (t : Q) :
  length (transcribe_loop draws i t) = length draws.
Proof.
  revert i t. induction draws as [|dr rest IH]; intros i t; simpl;
    [reflexivity | now rewrite IH].
Qed.

Lemma transcribe_loop_nth (draws : list SegmentDraw) :
  forall (i : nat) (t : Q) (k : nat) (s : AsrSegment),
    Forall draw_ok draws ->
    nth_error (transcribe_loop draws i t) k = Some s ->
    asr_id s = (i + k)%nat
    /\ asr_start s <= asr_end s
    /\ exists dr, nth_error draws k = Some dr
                  /\ asr_text s
                     = Some (generate_random_text (draw_picks dr)
                               (draw_length dr)).
Proof.
  induction draws as [|dr rest IH]; intros i t k s Hok H.
  - destruct k; discriminate H.
  - apply Forall_cons_1 in Hok as [Hdr Hrest]. destruct k as [|k].
    + simpl in H. injection H as <-. simpl. split; [lia|]. split.
      * destruct (draw_ok_rounded dr Hdr) as [H2 _].
        rewrite <- (round2_idem t) at 1. apply round2_mono.
        change (inject_Z 2) with 2 in H2. lra.
      * exists dr. split; reflexivity.
    + simpl in H. destruct (IH _ _ _ _ Hrest H) as (A & B & C).
      split; [lia|]. split; [exact B | exact C].
Qed.

Lemma Qgt_bool_2000 (t : Q) : Qgt_bool 2000 t = true -> t < 2000.
Proof. apply Qgt_bool_true. Qed.

Lemma speaker_pick (k : nat) : (k < 4)%nat -> In (nth k SPEAKERS ""%string) SPEAKERS.
Proof.
  intros H. destruct k as [|[|[|[|k]]]]; simpl; auto 6. lia.
Qed.

(** No turn of the mock diarization ends after [total_duration]. *)
Lemma diarize_loop_end (draws : list TurnDraw) :
  forall t : Q,
    Forall (fun d => diar_end d <= 2000) (diarize_loop draws 2000 t).
Proof.
  induction draws as [|dr rest IH]; intros t; simpl; [constructor|].
  destruct (Qgt_bool 2000 t); [|constructor].
  constructor; [|apply IH]. simpl.
  apply (round2_le_Z _ 2000). apply Q.le_min_r.
Qed.

Lemma diarize_loop_length (draws : list TurnDraw) :
  forall t : Q, (length (diarize_loop draws 2000 t) <= length draws)%nat.
Proof.
  induction draws as [|dr rest IH]; intros t; simpl; [lia|].
  destruct (Qgt_bool 2000 t); simpl; [|lia].
  specialize (IH (round2 (Qmin (round2 t + round2 (draw_turn dr)) 2000))). lia.
Qed.

Lemma diarize_loop_chain (draws : list TurnDraw) :
  forall (t : Q) (k : nat) (d1 d2 : DiarSegment),
    nth_error (diarize_loop draws 2000 t) k = Some d1 ->
    nth_error (diarize_loop draws 2000 t) (S k) = Some d2 ->
    diar_start d2 = diar_end d1.
Proof.
  induction draws as [|dr rest IH]; intros t k d1 d2 H1 H2.
  - destruct k; discriminate H1.
  - simpl in H1, H2. destruct (Qgt_bool 2000 t).
    2:{ destruct k; discriminate H1. }
    destruct k as [|k].
    + simpl in H1. injection H1 as <-. simpl in H2.
      destruct rest as [|dr2 rest]; [discriminate H2|].
      simpl in H2.
      destruct (Qgt_bool 2000
                  (round2 (Qmin (round2 t + round2 (draw_turn dr)) 2000)));
        [|discriminate H2].
      simpl in H2. injection H2 as <-. simpl. apply round2_idem.
    + simpl in H1, H2. exact (IH _ _ _ _ H1 H2).
Qed.

(** Every turn of the mock diarization starts before [total_duration], at
    or after the time at which the loop is entered, ends no earlier than it
    starts, and carries one of the four speakers. *)
Lemma diarize_loop_turns (draws : list TurnDraw) :
  forall t : Q,
    Forall turn_ok draws ->
    round2 t = t ->
    Forall (fun d => t <= diar_start d /\ diar_start d < 2000
                     /\ diar_start d <= diar_end d
                     /\ In (diar_speaker d) SPEAKERS)
           (diarize_loop draws 2000 t).
Proof.
  induction draws as [|dr rest IH]; intros t Hok Ht; simpl; [constructor|].
  apply Forall_cons_1 in Hok as [(H10 & _ & Hsp) Hrest].
  destruct (Qgt_bool 2000 t) eqn:E; [|constructor].
  apply Qgt_bool_2000 in E.
  pose proof (round2_ge_Z _ 10 H10) as Hd. change (inject_Z 10) with 10 in Hd.
  set (e := round2 (Qmin (round2 t + round2 (draw_turn dr)) 2000)).
  assert (He : t <= e).
  { unfold e. rewrite <- Ht at 1. apply round2_mono.
    apply Q.min_glb; rewrite ?Ht; lra. }
  constructor.
  - simpl. rewrite Ht. fold e. split; [apply Qle_refl|]. split; [exact E|].
    split; [exact He|]. now apply speaker_pick.
  - specialize (IH e Hrest (round2_idem _)).
    eapply Forall_impl; [exact IH|]. intros d (A & B & C & D).
    split; [lra|]. auto.
Qed.

End Mocks.

(** X13.  Whatever the draws, the mock transcription of a chunk returns one
    segment per turn of its loop, numbered from 0 in order, each with a
    text, and each ending no earlier than it starts. *)
Theorem transcribe_chunk_well_formed (draws : list SegmentDraw) :
  draws_ok draws ->
  length (transcribe_chunk draws) = length draws
  /\ forall k s,
       nth_error (transcribe_chunk draws) k = Some s ->
       asr_id s = k
       /\ (asr_start s <= asr_end s)%Q
       /\ exists dr, nth_error draws k = Some dr
                     /\ asr_text s
                        = Some (generate_random_text (draw_picks dr)
                                  (draw_length dr)).
Proof.
  intros [_ Hok]. split; [apply transcribe_loop_length|].
  intros k s H. apply (transcribe_loop_nth draws 0 0%Q k s Hok H).
Qed.

Lemma transcribe_chunk_well_formed_witness :
  length (transcribe_chunk [Examples.draw_2s; Examples.draw_5s]) = 2.
Proof.
  refine (proj1 (transcribe_chunk_well_formed
                   [Examples.draw_2s; Examples.draw_5s] _)).
  split; [simpl; lia|].
  repeat constructor; unfold Qle; simpl; lia.
Defined.

(** X14.  Whatever the draws, the mock diarization returns at most one turn
    per draw; its turns form a chain (each starts where the previous one
    ends), each starts at or after 0 and before 2000, ends no earlier than
    it starts and no later than 2000, and names one of the four
    speakers. *)
Theorem diarize_audio_turns (turns : list TurnDraw) :
  Forall turn_ok turns ->
  length (diarize_audio turns) <= length turns
  /\ (forall k d1 d2,
        nth_error (diarize_audio turns) k = Some d1 ->
        nth_error (diarize_audio turns) (S k) = Some d2 ->
        diar_start d2 = diar_end d1)
  /\ Forall (fun d => (0 <= diar_start d)%Q /\ (diar_start d < 2000)%Q
                      /\ (diar_start d <= diar_end d)%Q
                      /\ (diar_end d <= 2000)%Q
                      /\ In (diar_speaker d) SPEAKERS)
       (diarize_audio turns).
Proof.
  intros Hok. unfold diarize_audio.
  split; [apply diarize_loop_length|]. split; [apply diarize_loop_chain|].
  pose proof (diarize_loop_turns turns 0%Q Hok eq_refl) as H1.
  pose proof (diarize_loop_end turns 0%Q) as H2.
  apply List.Forall_forall. intros d Hd.
  rewrite List.Forall_forall in H1, H2.
  destruct (H1 d Hd) as (A & B & C & D). specialize (H2 d Hd). auto 6.
Qed.

Lemma diarize_audio_turns_witness :
  length (diarize_audio MoreExamples.turns_30) <= 30.
Proof.
  refine (proj1 (diarize_audio_turns MoreExamples.turns_30 _)).
  repeat constructor; unfold Qle; simpl; lia.
Defined.



(** X16.  With the mock transcriber, whatever its draws and whatever the
    diarization returns, the segments of a returned transcript are ordered
    by start time. *)
Theorem mock_response_sorted
    (w : World) (draws : nat -> list SegmentDraw) (r : MeetingTranscript) :
  transcriber w = mock_transcriber draws ->
  (forall i, i < NUM_CHUNKS w -> draws_ok (draws i)) ->
  process_meeting_audio w = Ok r ->
  StronglySorted aligned_start_le (segments r).
Proof.
  intros Htr Hok H.
  destruct (process_ok_inv w r H) as (_ & segs & ds & Hsegs & _ & ->).
  simpl. apply align_start_sorted.
  apply flat_map_seq_sorted. intros i Hi.
  assert (E : segs i = transcribe_chunk (draws i)).
  { specialize (Hsegs i ltac:(lia)). rewrite Htr in Hsegs.
    unfold mock_transcriber in Hsegs. now injection Hsegs as <-. }
  rewrite E.
  destruct (transcribe_chunk_window (draws i)) as [Hs Hw]; [apply Hok; lia|].
  apply shift_window; [exact Hs|].
  eapply Forall_impl; [exact Hw|]. intros s (A & B & _). now split.
Qed.

Lemma mock_response_sorted_witness :
  StronglySorted aligned_start_le
    (segments
       (response "00000000-0000-4000-8000-000000000000"
          (align_asr_with_diarization
             (flat_map
                (fun i => map (shift (chunk_offset i))
                            (transcribe_chunk (Examples.draws_two_chunks i)))
                (seq 0 2))
             (diarize_audio MoreExamples.turns_30)))).
Proof.
  refine (mock_response_sorted
            (MoreExamples.mock_world Examples.draws_two_chunks
               MoreExamples.turns_30 2)
            Examples.draws_two_chunks _ eq_refl _ eq_refl).
  intros [|[|i]] Hi.
  - split; [simpl; lia|]. repeat constructor; unfold Qle; simpl; lia.
  - split; [simpl; lia|]. repeat constructor; unfold Qle; simpl; lia.
  - simpl in Hi. lia.
Defined.

(** X17.  [generate_random_text] cuts the text it has accumulated to
    exactly the requested length (the loop always accumulates enough) and
    strips it: the result is never longer than requested and has no blank
    at either end. *)
Theorem generate_text_length
    (sentences : list string) (picks : nat -> nat) (n : nat) :
  String.length (str_take n (generate_loop sentences n picks 0 n "")) = n
  /\ String.length (generate_text sentences picks n) <= n
  /\ stripped (generate_text sentences picks n).
Proof.
  assert (E : String.length
                (str_take n (generate_loop sentences n picks 0 n "")) = n).
  { apply str_take_length, generate_loop_full. simpl. lia. }
  split; [exact E|]. unfold generate_text. split; [|apply strip_stripped].
  pose proof (strip_length
                (str_take n (generate_loop sentences n picks 0 n ""))) as L.
  rewrite E in L. exact L.
Qed.

(** ** Chunk names *)

Section ChunkNames.

Local Open Scope string_scope.

Lemma pretty_N_char_digit (y : N) :
  (0 < y < 10)%N ->
  pretty_N_char y <> "0"%char /\ pretty_N_char y <> "."%char.
Proof.
  intros H.
  assert (y = 1 \/ y = 2 \/ y = 3 \/ y = 4 \/ y = 5 \/ y = 6
          \/ y = 7 \/ y = 8 \/ y = 9)%N as Hy by lia.
  repeat (destruct Hy as [->|Hy]; [split; discriminate|]).
  subst. split; discriminate.
Qed.

Lemma pretty_N_go_head (x : N) :
  forall s, (0 < x)%N ->
    exists y rest, pretty_N_go x s = String (pretty_N_char y) rest
                   /\ (0 < y < 10)%N.
Proof.
  induction (N.lt_wf_0 x) as [x _ IH]. intros s Hx.
  rewrite pretty_N_go_step by exact Hx.
  destruct (N.eq_dec (x `div` 10)%N 0%N) as [E|E].
  - rewrite E, pretty_N_go_0. exists (x `mod` 10)%N. eexists.
    split; [reflexivity|].
    assert (x < 10)%N.
    { assert (T : (10 <> 0)%N) by discriminate.
      pose proof (N.div_mod x 10 T) as D.
      pose proof (N.mod_lt x 10 T) as M. rewrite E in D. lia. }
    rewrite N.mod_small by assumption. lia.
  - apply IH; [apply N.div_lt; lia | now apply N.neq_0_lt_0].
Qed.

Lemma pretty_nat_head (i : nat) (t : string) :
  numeral_head (pretty i ++ String "." t).
Proof.
  unfold pretty, pretty_nat, pretty, pretty_N.
  destruct (decide (N.of_nat i = 0%N)) as [E|E].
  - exists "0"%char. eexists. split; [reflexivity|].
    split; [discriminate|]. right. eexists. reflexivity.
  - destruct (pretty_N_go_head (N.of_nat i) "") as (y & rest & -> & Hy);
      [lia|].
    destruct (pretty_N_char_digit y Hy) as [H0 Hdot].
    exists (pretty_N_char y). eexists. split; [reflexivity|].
    split; [exact Hdot | left; exact H0].
Qed.

Lemma zeros_S (k : nat) :
  String.concat "" (replicate (S k) "0") = String "0" (String.concat "" (replicate k "0")).
Proof. destruct k; reflexivity. Qed.

(** Leading zeros cannot be confused with the numeral they pad. *)
Lemma zeros_app_inj (a b : nat) (x y : string) :
  numeral_head x -> numeral_head y ->
  String.concat "" (replicate a "0") ++ x
  = String.concat "" (replicate b "0") ++ y ->
  x = y.
Proof.
  intros Hx Hy. revert b. induction a as [|a IH]; intros [|b] H.
  - exact H.
  - rewrite zeros_S in H. simpl replicate in H.
    change (x = String "0" (String.concat "" (replicate b "0") ++ y)) in H.
    destruct Hx as (c & rest & -> & Hdot & [H0|[rest' ->]]);
      injection H as -> H; [congruence|].
    destruct b as [|b].
    + change (String "." rest' = y) in H.
      destruct Hy as (c' & r' & -> & Hdot' & _). congruence.
    + rewrite zeros_S in H. discriminate H.
  - rewrite zeros_S in H. simpl replicate in H.
    change (String "0" (String.concat "" (replicate a "0") ++ x) = y) in H.
    destruct Hy as (c & rest & -> & Hdot & [H0|[rest' ->]]);
      injection H as <- H; [congruence|].
    destruct a as [|a].
    + change (x = String "." rest') in H.
      destruct Hx as (c' & r' & -> & Hdot' & _). congruence.
    + rewrite zeros_S in H. discriminate H.
  - rewrite !zeros_S in H. injection H as H. exact (IH b H).
Qed.

Lemma string_app_inv_tail (s1 s2 t : string) : s1 ++ t = s2 ++ t -> s1 = s2.
Proof.
  intros H. apply (f_equal String.rev) in H. rewrite !string_rev_app in H.
  apply String.app_inj in H.
  rewrite <- (string_rev_involutive s1), <- (string_rev_involutive s2).
  now rewrite H.
Qed.

Lemma chunk_name_inj (i j : nat) : chunk_name i = chunk_name j -> i = j.
Proof.
  unfold chunk_name. cbv zeta. intros H.
  apply String.app_inj in H.
  apply zeros_app_inj in H; try apply (pretty_nat_head _ "mp3").
  apply string_app_inv_tail in H. now apply pretty_nat_inj in H.
Qed.

Lemma chunk_path_inj (dir : string) (i j : nat) :
  chunk_path dir i = chunk_path dir j -> i = j.
Proof.
  unfold chunk_path. intros H. do 2 apply String.app_inj in H.
  now apply chunk_name_inj.
Qed.

Lemma split_audio_paths (dir : string) (n : nat) :
  split_audio dir n = map (chunk_path dir) (seq 0 n).
Proof. reflexivity. Qed.

Lemma split_audio_NoDup (dir : string) (n : nat) : NoDup (split_audio dir n).
Proof.
  rewrite split_audio_paths. apply NoDup_ListNoDup.
  apply Finite.Injective_map_NoDup; [|apply List.seq_NoDup].
  intros i j. apply chunk_path_inj.
Qed.

End ChunkNames.

(** X18.  [split_audio] returns [NUM_CHUNKS] paths, no two of them equal:
    the zero-padded name of a chunk determines its index.  Up to index 999
    every name has exactly three digits. *)
Theorem split_audio_distinct (dir : string) (n : nat) :
  length (split_audio dir n) = n
  /\ NoDup (split_audio dir n)
  /\ (forall i j, chunk_name i = chunk_name j -> i = j)
  /\ (forall i, i < 1000 -> String.length (chunk_name i) = 13).
Proof.
  split; [|split; [|split]].
  - unfold split_audio. now rewrite length_map, length_seq.
  - apply split_audio_NoDup.
  - apply chunk_name_inj.
  - intros i Hi.
    assert (A : forallb (fun i => String.length (chunk_name i) =? 13)
                  (seq 0 1000) = true) by (vm_compute; reflexivity).
    rewrite forallb_forall in A. apply Nat.eqb_eq, A, in_seq. lia.
Qed.

(** ** Scratch files *)

Local Set Warnings "-clear-no-such-hyp".

Section ScratchFiles.

Lemma disk_eq (f1 f2 g1 g2 : gset string) :
  f1 = f2 -> g1 = g2 ->
  {| IO.files := f1; IO.dirs := g1 |} = {| IO.files := f2; IO.dirs := g2 |}.
Proof. now intros -> ->. Qed.

Lemma touch_chunks_spec (dir : string) (n : nat) :
  forall (i : nat) (acc : list string) (d : IO.Disk),
    MeetingAudioIO.touch_chunks dir i n acc d
    = (Ok (acc ++ map (chunk_path dir) (seq i n)),
       {| IO.files := list_to_set (map (chunk_path dir) (seq i n)) ∪ IO.files d;
          IO.dirs := IO.dirs d |}).
Proof.
  induction n as [|n IH]; intros i acc d.
  - simpl. unfold IO.ret. rewrite app_nil_r. f_equal. destruct d as [f g].
    apply disk_eq; [simpl; set_solver | reflexivity].
  - cbn [MeetingAudioIO.touch_chunks]. unfold IO.bind at 1, IO.touch at 1.
    rewrite IH. cbn [IO.files IO.dirs seq map]. rewrite <- app_assoc. f_equal.
    apply disk_eq; [|reflexivity]. unfold chunk_path. simpl list_to_set.
    set_solver.
Qed.

Lemma split_audio_io (dir : string) (n : nat) (d : IO.Disk) :
  MeetingAudioIO.split_audio dir n d
  = (Ok (split_audio dir n),
     {| IO.files := list_to_set (split_audio dir n) ∪ IO.files d;
        IO.dirs := {[dir]} ∪ IO.dirs d |}).
Proof.
  unfold MeetingAudioIO.split_audio, IO.bind, IO.mkdtemp.
  rewrite touch_chunks_spec. reflexivity.
Qed.

Lemma removed_chunks_sub (tr : Transcriber) (ct : option string)
    (chunks : list string) :
  forall (i : nat) (c : string),
    In c (removed_chunks tr ct chunks i) -> In c chunks.
Proof.
  induction chunks as [|x rest IH]; intros i c H; [destruct H|].
  simpl in H. destruct (tr i x ct); [|destruct H].
  destruct H as [<-|H]; [now left | right; eauto].
Qed.

(** The loop with its IO.files returns what the loop without them returns,
    and has removed the IO.files of the chunks before the first failure. *)
Lemma chunks_loop_io (tr : Transcriber) (ct : option string)
    (chunks : list string) :
  forall (i : nat) (acc : list AsrSegment) (offset : Q) (d : IO.Disk),
    List.NoDup chunks ->
    (forall c, In c chunks -> c ∈ IO.files d) ->
    MeetingAudioIO.chunks_loop tr ct chunks i acc offset d
    = (chunks_loop tr ct chunks i acc offset,
       {| IO.files := IO.files d ∖ list_to_set (removed_chunks tr ct chunks i);
          IO.dirs := IO.dirs d |}).
Proof.
  induction chunks as [|c rest IH]; intros i acc offset d Hnd Hin.
  - simpl. unfold IO.ret. f_equal. destruct d as [f g].
    apply disk_eq; [simpl; set_solver | reflexivity].
  - cbn [MeetingAudioIO.chunks_loop chunks_loop removed_chunks].
    unfold IO.bind at 1, IO.lift at 1.
    destruct (tr i c ct) as [segs|e].
    + cbn [bind]. unfold IO.bind at 1, IO.os_remove at 1.
      destruct (decide (c ∈ IO.files d)) as [Hc|Hc];
        [|destruct Hc; apply Hin; now left].
      apply List.NoDup_cons_iff in Hnd as [Hnotin Hnd].
      rewrite IH; [|exact Hnd|].
      * cbn [IO.files IO.dirs]. f_equal. apply disk_eq; [|reflexivity].
        simpl list_to_set. set_solver.
      * intros x Hx. cbn [IO.files]. apply elem_of_difference. split.
        -- apply Hin. now right.
        -- intros ->%elem_of_singleton. contradiction.
    + cbn [bind]. f_equal. destruct d as [f g].
      apply disk_eq; [simpl; set_solver | reflexivity].
Qed.

Lemma yield_loop_io (tr : Server.Transcriber) (ct : string)
    (chunks : list string) :
  forall (i : nat) (d : IO.Disk),
    List.NoDup chunks ->
    (forall c, In c chunks -> c ∈ IO.files d) ->
    ServerIO.yield_loop tr ct chunks i d
    = (Ok (Server.yield_loop tr ct chunks i),
       {| IO.files := IO.files d ∖ list_to_set chunks; IO.dirs := IO.dirs d |}).
Proof.
  induction chunks as [|c rest IH]; intros i d Hnd Hin.
  - simpl. unfold IO.ret. f_equal. destruct d as [f g].
    apply disk_eq; [simpl; set_solver | reflexivity].
  - cbn [ServerIO.yield_loop Server.yield_loop].
    unfold IO.bind at 1, IO.os_remove at 1.
    destruct (decide (c ∈ IO.files d)) as [Hc|Hc];
      [|destruct Hc; apply Hin; now left].
    apply List.NoDup_cons_iff in Hnd as [Hnotin Hnd].
    unfold IO.bind at 1. rewrite IH; [|exact Hnd|].
    + unfold IO.ret. cbn [IO.files IO.dirs]. f_equal. apply disk_eq; [|reflexivity].
      simpl list_to_set. set_solver.
    + intros x Hx. cbn [IO.files]. apply elem_of_difference. split.
      * apply Hin. now right.
      * intros ->%elem_of_singleton. contradiction.
Qed.

Lemma removed_chunks_all (tr : Transcriber) (ct : option string)
    (f : nat -> string) (segs : nat -> list AsrSegment) (n : nat) :
  forall i : nat,
    (forall j, i <= j < i + n -> tr j (f j) ct = Ok (segs j)) ->
    removed_chunks tr ct (map f (seq i n)) i = map f (seq i n).
Proof.
  induction n as [|n IH]; intros i H; [reflexivity|].
  simpl. rewrite (H i) by lia. f_equal. apply IH. intros j Hj. apply H. lia.
Qed.

Lemma removed_chunks_prefix (tr : Transcriber) (ct : option string)
    (f : nat -> string) (segs : nat -> list AsrSegment) (e : exn) (n : nat) :
  forall k i : nat,
    k < n ->
    (forall j, i <= j < i + k -> tr j (f j) ct = Ok (segs j)) ->
    tr (i + k) (f (i + k)) ct = Raise e ->
    removed_chunks tr ct (map f (seq i n)) i = map f (seq i k).
Proof.
  induction n as [|n IH]; intros k i Hk Hok He; [lia|].
  simpl. destruct k as [|k].
  - rewrite Nat.add_0_r in He. now rewrite He.
  - rewrite (Hok i) by lia. simpl. f_equal. apply IH; [lia| |].
    + intros j Hj. apply Hok. lia.
    + replace (S i + k) with (i + S k) by lia. exact He.
Qed.

(** [process_meeting_audio] with its IO.files, once the download has
    succeeded: the outcome is that of the pipeline without IO.files, and the
    disk has gained the chunk directory and the chunk IO.files that were not
    removed. *)
Lemma process_io (w : World) (d : IO.Disk) :
  ~ In (tmp_path w) (split_audio (tmp_dir w) (NUM_CHUNKS w)) ->
  200 <= resp_status (http_response w) <= 299 ->
  MeetingAudioIO.process_meeting_audio w d
  = (process_meeting_audio w,
     {| IO.files :=
          ((list_to_set (split_audio (tmp_dir w) (NUM_CHUNKS w))
            ∪ ({[tmp_path w]} ∪ IO.files d))
           ∖ list_to_set
               (removed_chunks (transcriber w)
                  (headers_get (resp_headers (http_response w)) "Content-Type")
                  (split_audio (tmp_dir w) (NUM_CHUNKS w)) 0))
          ∖ {[tmp_path w]};
        IO.dirs := {[tmp_dir w]} ∪ IO.dirs d |}).
Proof.
  intros Hfresh Hs. rewrite (process_after_download w Hs). cbv zeta.
  unfold MeetingAudioIO.process_meeting_audio,
    MeetingAudioIO.download_audio.
  unfold IO.bind at 1. unfold IO.bind at 1. unfold IO.lift at 1.
  rewrite (raise_for_status_ok _ Hs).
  unfold IO.bind at 1, IO.touch at 1, IO.ret at 1. cbn [fst snd].
  unfold IO.finally. unfold IO.bind at 1. rewrite split_audio_io.
  unfold IO.bind at 1. rewrite chunks_loop_io.
  2:{ apply NoDup_ListNoDup, split_audio_NoDup. }
  2:{ intros c Hc. cbn [IO.files]. apply elem_of_union_l, elem_of_list_to_set.
      now apply list_elem_of_In. }
  cbn [IO.files IO.dirs].
  set (ct := headers_get (resp_headers (http_response w)) "Content-Type").
  set (chunks := split_audio (tmp_dir w) (NUM_CHUNKS w)) in *.
  assert (Hrm : forall r : result MeetingTranscript,
            (let (r0, d') := (r,
               {| IO.files := (list_to_set chunks ∪ ({[tmp_path w]} ∪ IO.files d))
                           ∖ list_to_set
                               (removed_chunks (transcriber w) ct chunks 0);
                  IO.dirs := {[tmp_dir w]} ∪ IO.dirs d |}) in
             match IO.os_remove (tmp_path w) d' with
             | (Ok _, d'') => (r0, d'')
             | (Raise e, d'') => (Raise e, d'')
             end)
            = (r, {| IO.files := ((list_to_set chunks
                                ∪ ({[tmp_path w]} ∪ IO.files d))
                               ∖ list_to_set
                                   (removed_chunks (transcriber w) ct chunks 0))
                              ∖ {[tmp_path w]};
                     IO.dirs := {[tmp_dir w]} ∪ IO.dirs d |})).
  { intros r. unfold IO.os_remove. cbn [IO.files IO.dirs].
    destruct (decide (tmp_path w ∈
                (list_to_set chunks ∪ ({[tmp_path w]} ∪ IO.files d))
                ∖ list_to_set (removed_chunks (transcriber w) ct chunks 0)))
      as [Hin|Hout]; [reflexivity|].
    destruct Hout. apply elem_of_difference. split; [set_solver|].
    intros Hr. apply elem_of_list_to_set, list_elem_of_In in Hr.
    apply Hfresh. eapply removed_chunks_sub. exact Hr. }
  destruct (chunks_loop (transcriber w) ct chunks 0 [] 0%Q) as [all|e].
  - cbn [bind]. unfold IO.bind at 1, IO.lift at 1.
    destruct (diarizer w (tmp_path w)) as [ds|e]; cbn [bind].
    + unfold IO.ret. apply Hrm.
    + apply Hrm.
  - cbn [bind]. apply Hrm.
Qed.

End ScratchFiles.

Section ScratchSets.

Lemma fresh_chunks_set (chunks : list string) (F : gset string) :
  (forall c, In c chunks -> c ∉ F) ->
  forall c, c ∈ (list_to_set chunks : gset string) -> c ∉ F.
Proof.
  intros H c Hc. rewrite elem_of_list_to_set, list_elem_of_In in Hc.
  now apply H.
Qed.

Lemma fresh_tmp_set (chunks : list string) (t : string) :
  ~ In t chunks -> t ∉ (list_to_set chunks : gset string).
Proof.
  intros H Hc. rewrite elem_of_list_to_set, list_elem_of_In in Hc.
  now apply H.
Qed.

(** The paths of the chunks from [k] on are those of all chunks that are
    not among the first [k]. *)
Lemma chunk_paths_split (dir : string) (k n : nat) :
  k <= n ->
  (list_to_set (map (chunk_path dir) (seq 0 n)) : gset string)
  ∖ list_to_set (map (chunk_path dir) (seq 0 k))
  = list_to_set (map (chunk_path dir) (seq k (n - k))).
Proof.
  intros Hk. apply set_eq. intros x.
  rewrite elem_of_difference, !elem_of_list_to_set, !list_elem_of_In,
    !in_map_iff.
  split.
  - intros [(i & <- & Hi) Hnot]. apply in_seq in Hi.
    exists i. split; [reflexivity|]. apply in_seq.
    destruct (le_lt_dec k i) as [L|L]; [lia|].
    destruct Hnot. exists i. split; [reflexivity|]. apply in_seq. lia.
  - intros (i & <- & Hi). apply in_seq in Hi. split.
    + exists i. split; [reflexivity|]. apply in_seq. lia.
    + intros (j & E & Hj). apply in_seq in Hj.
      apply chunk_path_inj in E. lia.
Qed.

End ScratchSets.

(** X19.  As long as the name of the downloaded file is not the name of a
    chunk file, no file operation of [process_meeting_audio] fails: with
    its files the pipeline returns or raises exactly what it does without
    them. *)
Theorem scratch_files_do_not_change_outcome (w : World) (d : IO.Disk) :
  ~ In (tmp_path w) (split_audio (tmp_dir w) (NUM_CHUNKS w)) ->
  fst (MeetingAudioIO.process_meeting_audio w d) = process_meeting_audio w.
Proof.
  intros Hfresh.
  destruct (raise_for_status_dec (http_response w)) as [Hs|Hs].
  - now rewrite (process_io w d Hfresh Hs).
  - unfold MeetingAudioIO.process_meeting_audio,
      MeetingAudioIO.download_audio, process_meeting_audio, download_audio.
    unfold IO.bind at 1. unfold IO.bind at 1. unfold IO.lift.
    now rewrite (raise_for_status_error _ Hs).
Qed.

Lemma scratch_files_do_not_change_outcome_witness :
  fst (MeetingAudioIO.process_meeting_audio
         MoreExamples.world_failing_second MoreExamples.empty_disk)
  = process_meeting_audio MoreExamples.world_failing_second.
Proof.
  refine (scratch_files_do_not_change_outcome
            MoreExamples.world_failing_second MoreExamples.empty_disk _).
  vm_compute. intros [H|[H|[H|[]]]]; discriminate H.
Defined.

(** X20.  When the download succeeds and every chunk is transcribed,
    [process_meeting_audio] leaves none of its files behind, whether the
    diarization returns or raises: the downloaded file and all chunk files
    are removed, and only the chunk directory stays. *)
Theorem scratch_files_removed
    (w : World) (d : IO.Disk) (segs : nat -> list AsrSegment) :
  ~ In (tmp_path w) (split_audio (tmp_dir w) (NUM_CHUNKS w)) ->
  tmp_path w ∉ IO.files d ->
  (forall c, In c (split_audio (tmp_dir w) (NUM_CHUNKS w)) -> c ∉ IO.files d) ->
  200 <= resp_status (http_response w) <= 299 ->
  (forall i, i < NUM_CHUNKS w ->
     transcriber w i (tmp_dir w ++ "/" ++ chunk_name i)%string
       (headers_get (resp_headers (http_response w)) "Content-Type")
     = Ok (segs i)) ->
  MeetingAudioIO.process_meeting_audio w d
  = (process_meeting_audio w,
     {| IO.files := IO.files d; IO.dirs := {[tmp_dir w]} ∪ IO.dirs d |}).
Proof.
  intros Hfresh Ht Hc Hs Hsegs. rewrite (process_io w d Hfresh Hs).
  f_equal. apply disk_eq; [|reflexivity].
  unfold split_audio at 2.
  rewrite (removed_chunks_all _ _ _ segs).
  2:{ intros j Hj. apply Hsegs. lia. }
  fold (split_audio (tmp_dir w) (NUM_CHUNKS w)).
  pose proof (fresh_chunks_set _ _ Hc). pose proof (fresh_tmp_set _ _ Hfresh).
  set_solver.
Qed.

Lemma scratch_files_removed_witness :
  MeetingAudioIO.process_meeting_audio MoreExamples.world_ok
    MoreExamples.empty_disk
  = (process_meeting_audio MoreExamples.world_ok,
     {| IO.files := ∅; IO.dirs := {["/tmp/audio_chunks_a"%string]} ∪ ∅ |}).
Proof.
  refine (scratch_files_removed MoreExamples.world_ok MoreExamples.empty_disk
            (fun i => match i with
                      | O => [MoreExamples.seg_0_5]
                      | S _ => [Examples.seg_world]
                      end) _ _ _ _ _).
  - vm_compute. intros [H|[H|[]]]; discriminate H.
  - apply not_elem_of_empty.
  - intros c _. apply not_elem_of_empty.
  - simpl. lia.
  - intros [|i] Hi; reflexivity.
Defined.

(** X21.  When the download succeeds and chunk [k] is the first whose
    transcription raises, [process_meeting_audio] raises that exception
    and removes the downloaded file and the files of the chunks before
    [k], but leaves on disk the files of chunk [k] and of every later
    chunk, besides the chunk directory. *)
Theorem chunk_files_left_behind
    (w : World) (d : IO.Disk) (segs : nat -> list AsrSegment) (k : nat)
    (e : exn) :
  ~ In (tmp_path w) (split_audio (tmp_dir w) (NUM_CHUNKS w)) ->
  tmp_path w ∉ IO.files d ->
  (forall c, In c (split_audio (tmp_dir w) (NUM_CHUNKS w)) -> c ∉ IO.files d) ->
  200 <= resp_status (http_response w) <= 299 ->
  k < NUM_CHUNKS w ->
  (forall j, j < k ->
     transcriber w j (tmp_dir w ++ "/" ++ chunk_name j)%string
       (headers_get (resp_headers (http_response w)) "Content-Type")
     = Ok (segs j)) ->
  transcriber w k (tmp_dir w ++ "/" ++ chunk_name k)%string
    (headers_get (resp_headers (http_response w)) "Content-Type")
  = Raise e ->
  MeetingAudioIO.process_meeting_audio w d
  = (Raise e,
     {| IO.files :=
          list_to_set (map (chunk_path (tmp_dir w))
                         (seq k (NUM_CHUNKS w - k)))
          ∪ IO.files d;
        IO.dirs := {[tmp_dir w]} ∪ IO.dirs d |}).
Proof.
  intros Hfresh Ht Hc Hs Hk Hok He. rewrite (process_io w d Hfresh Hs).
  f_equal.
  - rewrite (process_after_download w Hs). cbv zeta. unfold split_audio.
    rewrite (chunks_loop_raise _ _ _ segs e (NUM_CHUNKS w) k 0 [] 0%Q Hk);
      [reflexivity| |exact He].
    intros j Hj. apply Hok. lia.
  - apply disk_eq; [|reflexivity].
    pose proof (fresh_chunks_set _ _ Hc) as Hc'.
    pose proof (fresh_tmp_set _ _ Hfresh) as Hfresh'.
    rewrite split_audio_paths in *.
    rewrite (removed_chunks_prefix _ _ (chunk_path (tmp_dir w)) segs e
               (NUM_CHUNKS w) k 0 Hk); [| |exact He].
    2:{ intros j Hj. apply Hok. lia. }
    rewrite <- (chunk_paths_split (tmp_dir w) k (NUM_CHUNKS w)) by lia.
    assert (HR : (list_to_set (map (chunk_path (tmp_dir w)) (seq 0 k))
                  : gset string)
                 ⊆ list_to_set
                     (map (chunk_path (tmp_dir w)) (seq 0 (NUM_CHUNKS w)))).
    { intros x.
      rewrite !elem_of_list_to_set, !list_elem_of_In, !in_map_iff.
      intros (i & <- & Hi). exists i. split; [reflexivity|].
      apply in_seq in Hi. apply in_seq. lia. }
    clear Hfresh Hc.
    set (C := list_to_set
                (map (chunk_path (tmp_dir w)) (seq 0 (NUM_CHUNKS w)))
              : gset string) in *.
    set (R := list_to_set (map (chunk_path (tmp_dir w)) (seq 0 k))
              : gset string) in *.
    clearbody C R. set_solver.
Qed.

Lemma chunk_files_left_behind_witness :
  MeetingAudioIO.process_meeting_audio MoreExamples.world_failing_second
    MoreExamples.empty_disk
  = (Raise (Exception "boom"),
     {| IO.files :=
          list_to_set (map (chunk_path "/tmp/audio_chunks_a") (seq 1 (3 - 1)))
          ∪ ∅;
        IO.dirs := {["/tmp/audio_chunks_a"%string]} ∪ ∅ |}).
Proof.
  refine (chunk_files_left_behind MoreExamples.world_failing_second
            MoreExamples.empty_disk (fun _ => [MoreExamples.seg_0_5]) 1
            (Exception "boom") _ _ _ _ _ _ _).
  - vm_compute. intros [H|[H|[H|[]]]]; discriminate H.
  - apply not_elem_of_empty.
  - intros c _. apply not_elem_of_empty.
  - simpl. lia.
  - simpl. lia.
  - intros [|j] Hj; [reflexivity | lia].
  - reflexivity.
Defined.

(** X22.  When the download succeeds, [transcribe_audio] of [server.py]
    leaves none of its files behind, whatever the transcriptions do: the
    downloaded file is removed once the chunks exist and every chunk file
    is removed after its chunk, failed or not; only the chunk directory
    stays.  Its outcome is that of the pipeline without files. *)
Theorem server_scratch_files_removed (w : Server.World) (d : IO.Disk) :
  ~ In (Server.tmp_path w)
       (split_audio (Server.tmp_dir w) (Server.NUM_CHUNKS w)) ->
  Server.tmp_path w ∉ IO.files d ->
  (forall c, In c (split_audio (Server.tmp_dir w) (Server.NUM_CHUNKS w)) ->
             c ∉ IO.files d) ->
  200 <= resp_status (Server.http_response w) <= 299 ->
  ServerIO.transcribe_audio w d
  = (Server.transcribe_audio w,
     {| IO.files := IO.files d;
        IO.dirs := {[Server.tmp_dir w]} ∪ IO.dirs d |}).
Proof.
  intros Hfresh Ht Hc Hs.
  pose proof (fresh_chunks_set _ _ Hc) as Hc'.
  pose proof (fresh_tmp_set _ _ Hfresh) as Hfresh'.
  unfold ServerIO.transcribe_audio, ServerIO.transcribe_audio_generator,
    ServerIO.download_audio, Server.transcribe_audio,
    Server.transcribe_audio_generator, Server.download_audio,
    ServerIO.split_audio, Server.split_audio.
  rewrite !(raise_for_status_ok _ Hs). cbn [bind fst snd].
  unfold IO.bind at 1. unfold IO.bind at 1. unfold IO.bind at 1.
  unfold IO.lift at 1.
  unfold IO.bind at 1, IO.touch at 1, IO.ret at 1. cbn [fst snd].
  unfold IO.bind at 1, IO.finally. rewrite split_audio_io.
  unfold IO.os_remove at 1. cbn [IO.files IO.dirs].
  destruct (decide (Server.tmp_path w ∈
              list_to_set (split_audio (Server.tmp_dir w) (Server.NUM_CHUNKS w))
              ∪ ({[Server.tmp_path w]} ∪ IO.files d))) as [Hin|Hout];
    [|destruct Hout; set_solver].
  rewrite yield_loop_io.
  - unfold IO.ret. cbn [IO.files IO.dirs]. f_equal.
    apply disk_eq; [|reflexivity]. set_solver.
  - apply NoDup_ListNoDup, split_audio_NoDup.
  - intros c Hcin. cbn [IO.files].
    assert (c ∈ (list_to_set (split_audio (Server.tmp_dir w)
                                (Server.NUM_CHUNKS w)) : gset string))
      by now apply elem_of_list_to_set, list_elem_of_In.
    set_solver.
Qed.

Lemma server_scratch_files_removed_witness :
  ServerIO.transcribe_audio Examples.server_world_failing_first
    MoreExamples.empty_disk
  = (Server.transcribe_audio Examples.server_world_failing_first,
     {| IO.files := ∅; IO.dirs := {["/tmp/audio_chunks_a"%string]} ∪ ∅ |}).
Proof.
  refine (server_scratch_files_removed Examples.server_world_failing_first
            MoreExamples.empty_disk _ _ _ _).
  - vm_compute. intros [H|[H|[]]]; discriminate H.
  - apply not_elem_of_empty.
  - intros c _. apply not_elem_of_empty.
  - simpl. lia.
Defined.
